(** * The segment-editing engine of the video tool server

    A shallow embedding of [src/tools/handlers.ts]: time parsing
    ([parseTimeToSeconds]), timestamp scraping
    ([extractTimestampsFromResponse]), the retain-interval walk and the
    extract/concatenate pipeline ([removeSegments]) and the keep-one-event
    driver ([removeEventSegments]).

    Modelling conventions.
    - A JavaScript string is a [string] whose characters are read as code
      units below 256.
    - A JavaScript number is a [number]: [NaN], the two infinities, or an
      exact rational.  Arithmetic is exact; the rounding of binary floating
      point is not part of the model, and neither is the sign of zero.
    - A thrown [Error] is an [error] value naming the [throw] site.
    - The collaborators whose code is outside the module (the media encoder,
      the probe, the analysis service, [JSON.parse]) are section variables. *)

From Stdlib Require Import Ascii String QArith Qround Qabs Lqa.
From stdpp Require Import base list strings gmap pretty sorting.

Local Open Scope string_scope.
Local Open Scope Z_scope.
Local Open Scope list_scope.

(** ** JavaScript numbers *)

Module Num.

Inductive number : Type :=
| NaN
| Inf (neg : bool)
| Fin (q : Q).

Definition isNaN (x : number) : bool :=
  match x with NaN => true | _ => false end.

Definition Qsign_neg (q : Q) : bool := (Qnum q <? 0)%Z.
Definition Qis_zero (q : Q) : bool := (Qnum q =? 0)%Z.

(** [x + y] *)
Definition add (x y : number) : number :=
  match x, y with
  | NaN, _ | _, NaN => NaN
  | Inf a, Inf b => if Bool.eqb a b then Inf a else NaN
  | Inf a, Fin _ | Fin _, Inf a => Inf a
  | Fin p, Fin q => Fin (p + q)
  end.

(** [x * y] *)
Definition mul (x y : number) : number :=
  match x, y with
  | NaN, _ | _, NaN => NaN
  | Inf a, Inf b => Inf (xorb a b)
  | Inf a, Fin q | Fin q, Inf a =>
      if Qis_zero q then NaN else Inf (xorb a (Qsign_neg q))
  | Fin p, Fin q => Fin (p * q)
  end.

(** [x < y]; false as soon as one side is [NaN]. *)
Definition ltb (x y : number) : bool :=
  match x, y with
  | NaN, _ | _, NaN => false
  | Inf a, Inf b => a && negb b
  | Inf a, Fin _ => a
  | Fin _, Inf b => negb b
  | Fin p, Fin q => negb (Qle_bool q p)
  end.


Definition of_Z (z : Z) : number := Fin (inject_Z z).

End Num.

Export Num.

(** ** Strings: the builtins the module calls *)

Module Js.

Definition code (c : ascii) : N := N_of_ascii c.

(** WhiteSpace and LineTerminator code units below 256. *)
Definition is_white (c : ascii) : bool :=
  let n := code c in
  ((9 <=? n) && (n <=? 13) || (n =? 32) || (n =? 160))%N.

Definition is_digit (c : ascii) : bool :=
  let n := code c in ((48 <=? n) && (n <=? 57))%N.

Definition digit_val (c : ascii) : Z := Z.of_N (code c) - 48.

(** [\w] of a regular expression without flags. *)
Definition is_word (c : ascii) : bool :=
  let n := code c in
  (is_digit c || (65 <=? n) && (n <=? 90) || (97 <=? n) && (n <=? 122)
   || (n =? 95))%N.

Fixpoint trimStart (s : string) : string :=
  match s with
  | String c r => if is_white c then trimStart r else s
  | EmptyString => EmptyString
  end.

Fixpoint trimEnd (s : string) : string :=
  match s with
  | String c r =>
      match trimEnd r with
      | EmptyString => if is_white c then EmptyString else String c EmptyString
      | r' => String c r'
      end
  | EmptyString => EmptyString
  end.

(** [s.trim()] *)
Definition trim (s : string) : string := trimEnd (trimStart s).

(** [s.includes(c)] for a one-character needle. *)
Fixpoint includes_char (c : ascii) (s : string) : bool :=
  match s with
  | String d r => if Ascii.eqb c d then true else includes_char c r
  | EmptyString => false
  end.

(** [s.split(c)] for a one-character separator: never empty. *)
Fixpoint split (c : ascii) (s : string) : list string :=
  match s with
  | EmptyString => [EmptyString]
  | String d r =>
      if Ascii.eqb c d then EmptyString :: split c r
      else match split c r with
           | p :: ps => String d p :: ps
           | [] => [String d EmptyString]
           end
  end.

(** The longest prefix of decimal digits, most significant first, and
    what follows it. *)
Fixpoint span_digits (s : string) : list Z * string :=
  match s with
  | String c r =>
      if is_digit c
      then let '(ds, rest) := span_digits r in (digit_val c :: ds, rest)
      else ([], s)
  | EmptyString => ([], EmptyString)
  end.

Definition digits_value (ds : list Z) : Z :=
  fold_left (fun acc d => 10 * acc + d) ds 0.

(** An optional leading sign: [true] for a minus. *)
Definition read_sign (s : string) : bool * string :=
  match s with
  | String "-" r => (true, r)
  | String "+" r => (false, r)
  | _ => (false, s)
  end.

Definition signed (neg : bool) (z : Z) : Z := if neg then - z else z.

(** [parseInt(s, 10)]: leading white space, a sign, then the longest run
    of decimal digits; [NaN] when that run is empty. *)
Definition parseInt10 (s : string) : number :=
  let '(neg, u) := read_sign (trimStart s) in
  let '(ds, _) := span_digits u in
  match ds with
  | [] => NaN
  | _ => Num.of_Z (signed neg (digits_value ds))
  end.

(** [m * 10^e] as an exact rational. *)
Definition scale10 (m e : Z) : Q :=
  if (0 <=? e)%Z then inject_Z (m * 10 ^ e)
  else (m # Z.to_pos (10 ^ (- e)))%Q.

(** The exponent part [e], [E] followed by an optionally signed run of
    digits; an [e] that no digit follows is not part of the literal. *)
Definition read_exponent (s : string) : Z :=
  match s with
  | String c r =>
      if (Ascii.eqb c "e" || Ascii.eqb c "E")%bool
      then let '(neg, u) := read_sign r in
           let '(ds, _) := span_digits u in
           match ds with
           | [] => 0
           | _ => signed neg (digits_value ds)
           end
      else 0
  | EmptyString => 0
  end.

Definition decimal (neg : bool) (ip fp : list Z) (rest : string) : number :=
  Fin (scale10 (signed neg (digits_value (ip ++ fp)))
               (read_exponent rest - Z.of_nat (length fp))).

(** [parseFloat(s)]: leading white space, then the longest prefix that is
    a StrDecimalLiteral; [NaN] when there is none. *)
Definition parseFloat (s : string) : number :=
  let '(neg, u) := read_sign (trimStart s) in
  if String.prefix "Infinity" u then Inf neg
  else
    let '(ip, r1) := span_digits u in
    match r1 with
    | String "." r =>
        let '(fp, r2) := span_digits r in
        match ip, fp with
        | [], [] => NaN
        | _, _ => decimal neg ip fp r2
        end
    | _ =>
        match ip with
        | [] => NaN
        | _ => decimal neg ip [] r1
        end
    end.

End Js.

(** ** Errors, one constructor for each [throw] site *)

Inductive error : Type :=
| TimeUndefinedOrNull
    (* "Time input cannot be undefined or null." *)
| TimeEmpty
    (* "Time string cannot be empty after trimming." *)
| InvalidTimeFormat (input : string)
    (* "Invalid time format: ... Expected HH:MM:SS.mmm, MM:SS.mmm, or a
       number of seconds." *)
| TimeResultedInNaN (input : string)
    (* "Invalid time string: ... resulted in NaN after parsing time
       components." *)
| NoValidTimestamps
    (* "No valid timestamps found in Gemini response" *)
| VideoInfoNotJson
    (* "Failed to parse video info as JSON: ..." *)
| NoVideoDuration
    (* "Could not determine video duration from video info" *)
| NoSegmentsToKeep
    (* "No segments to keep; the entire video would be removed" *)
| ExpectedOneSegment (found : nat)
    (* "Expected exactly one segment to keep, but found " + length *)
| FailedToProcess (cause : error)
    (* "Failed to process video: " + error.message *)
| FilePathRequired
    (* "File path is required" *)
| InputFileMissing (path : string)
    (* "Input file does not exist: " + path *)
| Collaborator (message : string)
    (* an error raised by the encoder, the probe or the analysis service *).

Inductive result (A : Type) : Type :=
| Ok (a : A)
| Err (e : error).
Arguments Ok {A} a.
Arguments Err {A} e.

(** ** TimeCode: [parseTimeToSeconds] *)

(** The argument of [parseTimeToSeconds]; a numeric argument reaches the
    parser as the string [String(timeStr)]. *)
Inductive timeInput : Type :=
| Undefined
| Null
| Str (s : string).

Definition parseTimeToSeconds (timeStr : timeInput) : result number :=
  match timeStr with
  | Undefined | Null => Err TimeUndefinedOrNull
  | Str s =>
      let time := Js.trim s in
      if decide (time = EmptyString) then Err TimeEmpty
      else if Js.includes_char ":" time then
        let parts := Js.split ":" time in
        let totalSeconds :=
          match parts with
          | [p0; p1; p2] =>
              let t := Num.add (Fin 0) (Num.mul (Js.parseInt10 p0) (Fin 3600)) in
              let t := Num.add t (Num.mul (Js.parseInt10 p1) (Fin 60)) in
              Ok (Num.add t (Js.parseFloat p2))
          | [p0; p1] =>
              let t := Num.add (Fin 0) (Num.mul (Js.parseInt10 p0) (Fin 60)) in
              Ok (Num.add t (Js.parseFloat p1))
          | _ => Err (InvalidTimeFormat s)
          end in
        match totalSeconds with
        | Ok t => if Num.isNaN t then Err (TimeResultedInNaN s) else Ok t
        | Err e => Err e
        end
      else
        let parsedSeconds := Js.parseFloat time in
        if Num.isNaN parsedSeconds then Err (InvalidTimeFormat s)
        else Ok parsedSeconds
  end.

Definition parseStr (s : string) : result number := parseTimeToSeconds (Str s).

Global Instance result_ret : MRet result := fun _ a => Ok a.
Global Instance result_bind : MBind result := fun _ _ f r =>
  match r with Ok a => f a | Err e => Err e end.
Global Instance result_fmap : FMap result := fun _ _ f r =>
  match r with Ok a => Ok (f a) | Err e => Err e end.

(** ** TimestampExtractor: [extractTimestampsFromResponse] *)

Module Regex.

(** The pattern [/\b(\d{2}:\d{2}:\d{2}(?:\.\d+)?)\b/g], matched the way a
    backtracking matcher runs it. *)

Definition head (s : string) : option ascii :=
  match s with String c _ => Some c | EmptyString => None end.

Definition word_at (c : option ascii) : bool :=
  match c with Some c => Js.is_word c | None => false end.

(** [\b] between the character before the position and the one at it. *)
Definition boundary (prev : option ascii) (s : string) : bool :=
  xorb (word_at prev) (word_at (head s)).

(** [\d{2}:\d{2}:\d{2}] at the head of [s]. *)
Definition core (s : string) : option (string * string) :=
  match s with
  | String h1 (String h2 (String c1 (String m1 (String m2
      (String c2 (String s1 (String s2 rest))))))) =>
      if (Js.is_digit h1 && Js.is_digit h2 && Ascii.eqb c1 ":"
          && Js.is_digit m1 && Js.is_digit m2 && Ascii.eqb c2 ":"
          && Js.is_digit s1 && Js.is_digit s2)%bool
      then Some (String h1 (String h2 (String c1 (String m1 (String m2
                  (String c2 (String s1 (String s2 EmptyString))))))), rest)
      else None
  | _ => None
  end.

(** The digits at the head of [s], as characters. *)
Fixpoint digit_run (s : string) : string * string :=
  match s with
  | String c r =>
      if Js.is_digit c
      then let '(ds, rest) := digit_run r in (String c ds, rest)
      else (EmptyString, s)
  | EmptyString => (EmptyString, EmptyString)
  end.

Definition last_char (dflt : ascii) (s : string) : ascii :=
  List.last (list_ascii_of_string s) dflt.

(** [s.slice(0, k)] and [s.slice(k)] *)
Fixpoint string_take (k : nat) (s : string) : string :=
  match k, s with
  | S k', String c r => String c (string_take k' r)
  | _, _ => EmptyString
  end.
Fixpoint string_drop (k : nat) (s : string) : string :=
  match k, s with
  | S k', String c r => string_drop k' r
  | _, _ => s
  end.

(** [\d+\b], greedy: the run of [k] digits is tried for [k] from the
    longest down to one, and the first that ends at a boundary wins. *)
Fixpoint digits_then_boundary (k : nat) (ds rest : string)
  : option (string * string) :=
  match k with
  | O => None
  | S k' =>
      let taken := string_take k ds in
      let after := string_drop k ds +:+ rest in
      if boundary (Some (last_char "0" taken)) after
      then Some (taken, after)
      else digits_then_boundary k' ds rest
  end.

(** The whole pattern at the head of [s], [prev] being the character
    before it: the matched text and what follows. *)
Definition matchAt (prev : option ascii) (s : string)
  : option (string * string) :=
  if boundary prev s then
    match core s with
    | Some (hms, rest) =>
        let without_fraction :=
          if boundary (Some (last_char "0" hms)) rest
          then Some (hms, rest) else None in
        match rest with
        | String "." r =>
            let '(ds, r') := digit_run r in
            match digits_then_boundary (String.length ds) ds r' with
            | Some (frac, after) => Some (hms +:+ "." +:+ frac, after)
            | None => without_fraction
            end
        | _ => without_fraction
        end
    | None => None
    end
  else None.

(** [s.match(re)] with the [g] flag: every match from left to right, the
    search resuming where the last match ended.  [skip] counts the
    characters of the current match still to pass over. *)
Fixpoint scan (prev : option ascii) (skip : nat) (s : string) : list string :=
  match s with
  | EmptyString => []
  | String c r =>
      match skip with
      | S k => scan (Some c) k r
      | O =>
          match matchAt prev s with
          | Some (m, _) => m :: scan (Some c) (String.length m - 1) r
          | None => scan (Some c) 0 r
          end
      end
  end.

(** [null] is the empty list. *)
Definition matchAll (s : string) : list string := scan None 0 s.

End Regex.

Record segment : Type := { startTime : string; endTime : string }.

(** The loop [for (i = 0; i < matches.length; i += 2)] with its guard
    [i + 1 < matches.length]. *)
Fixpoint pairUp (matches : list string) : list segment :=
  match matches with
  | a :: b :: rest => {| startTime := a; endTime := b |} :: pairUp rest
  | _ => []
  end.

Definition extractTimestampsFromResponse (responseText : string)
  : result (list segment) :=
  let matches := Regex.matchAll responseText in
  let timestamps :=
    if (2 <=? length matches)%nat then pairUp matches else [] in
  if (length timestamps =? 0)%nat then Err NoValidTimestamps
  else Ok timestamps.

(** ** SegmentPlanner: the first half of [removeSegments] *)

Record part : Type := { start : string; end_ : string }.

Definition startSeconds (s : segment) : result number := parseStr (startTime s).

(** [x - y] *)
Definition sub (x y : number) : number :=
  Num.add x (Num.mul (Fin (-1)) y).

Definition key (s : segment) : number :=
  match startSeconds s with Ok x => x | Err _ => NaN end.

(** The comparator [(a, b) => parse(a.startTime) - parse(b.startTime)],
    on segments whose start times parse: a negative result sorts [a]
    before [b], and [NaN] (from two equal infinities) counts as zero. *)
Definition comparator (a b : segment) : number := sub (key a) (key b).

(** [Array.prototype.sort] is stable; every stable sort returns the list
    an insertion sort returns. *)
Fixpoint insertSorted (x : segment) (l : list segment) : list segment :=
  match l with
  | [] => [x]
  | y :: l' =>
      if Num.ltb (comparator y x) (Fin 0) then y :: insertSorted x l'
      else x :: l
  end.

Definition stableSort (l : list segment) : list segment :=
  foldr insertSorted [] l.

(** The error of the first element that does not parse. *)
Fixpoint firstError {A} (f : A -> result number) (l : list A) : option error :=
  match l with
  | [] => None
  | x :: l' => match f x with Err e => Some e | Ok _ => firstError f l' end
  end.

(** [segments.sort(...)]: with fewer than two segments the comparator is
    never called; with two or more it is called on every segment and a
    start time that does not parse makes the sort throw (which of several
    such errors surfaces depends on the engine: the first is taken). *)
Definition sortSegments (segments : list segment) : result (list segment) :=
  if (length segments <? 2)%nat then Ok segments
  else match firstError startSeconds segments with
       | Some e => Err e
       | None => Ok (stableSort segments)
       end.

(** [parse(a) < parse(b)], the left operand evaluated first. *)
Definition lessThan (a b : string) : result bool :=
  x ← parseStr a; y ← parseStr b; Ok (Num.ltb x y).

(** The loop over the sorted segments: [prevEnd] is the cursor. *)
Fixpoint walk (segments : list segment) (prevEnd : string)
    (partsToKeep : list part) : result (string * list part) :=
  match segments with
  | [] => Ok (prevEnd, partsToKeep)
  | segment :: rest =>
      b ← lessThan prevEnd (startTime segment);
      walk rest (endTime segment)
        (if b : bool
         then partsToKeep ++ [{| start := prevEnd; end_ := startTime segment |}]
         else partsToKeep)
  end.

Definition partsToKeep (totalDuration : string) (sorted : list segment)
  : result (list part) :=
  '(prevEnd, parts) ← walk sorted "00:00:00" [];
  b ← lessThan prevEnd totalDuration;
  Ok (if b : bool
      then parts ++ [{| start := prevEnd; end_ := totalDuration |}]
      else parts).


(** ** Rendering numbers *)

Definition digit_char (d : Z) : ascii := ascii_of_N (48 + Z.to_N d).

Definition six_digits (n : Z) : string :=
  String (digit_char (n / 100000 mod 10))
    (String (digit_char (n / 10000 mod 10))
      (String (digit_char (n / 1000 mod 10))
        (String (digit_char (n / 100 mod 10))
          (String (digit_char (n / 10 mod 10))
            (String (digit_char (n mod 10)) EmptyString))))).

(** [x.toFixed(6)]: the integer [n] closest to [|x| * 10^6], the larger
    one at a tie, written with six decimals.  (From [10^21] on JavaScript
    switches to the exponent notation, which [parseFloat] reads back to
    the same number; the fixed notation is kept here.) *)
Definition toFixed6 (x : number) : string :=
  match x with
  | NaN => "NaN"
  | Inf neg => (if neg then "-" else EmptyString) +:+ "Infinity"
  | Fin q =>
      let n := Qfloor (Qabs q * inject_Z 1000000 + (1 # 2)) in
      (if Num.Qsign_neg q then "-" else EmptyString)
      +:+ pretty (n / 1000000) +:+ "." +:+ six_digits (n mod 1000000)
  end.

(** ** The world outside the module *)

Inductive event : Type :=
| ProbeCall (path : string)
| EncoderCall (command : string)
| AnalysisCall (path prompt : string)
| MkdirCall (path : string).

(** The file system is a finite map from paths to contents. *)
Record world : Type := { files : gmap string string; log : list event }.

(** What a collaborator answers: its output, or the message of the error
    it raises. *)
Inductive outcome : Type :=
| Done (output : string)
| Failed (message : string).

Definition answer (o : outcome) : result string :=
  match o with Done s => Ok s | Failed m => Err (Collaborator m) end.

(** ** A state and error monad for the asynchronous functions *)

Definition M (S A : Type) : Type := S -> result A * S.

Definition ret {S A} (a : A) : M S A := fun s => (Ok a, s).
Definition throw {S A} (e : error) : M S A := fun s => (Err e, s).
Definition liftR {S A} (r : result A) : M S A := fun s => (r, s).
Definition bind {S A B} (m : M S A) (k : A -> M S B) : M S B :=
  fun s => match m s with
           | (Ok a, s') => k a s'
           | (Err e, s') => (Err e, s')
           end.

(** [try { body } finally { fin }] *)
Definition tryFinally {S A} (body : M S A) (fin : S -> S) : M S A :=
  fun s => let '(r, s') := body s in (r, fin s').

(** [try { body } catch (error) { throw wrap(error) }] *)
Definition tryRethrow {S A} (body : M S A) (wrap : error -> error) : M S A :=
  fun s => match body s with
           | (Ok a, s') => (Ok a, s')
           | (Err e, s') => (Err (wrap e), s')
           end.

Notation "'let*' x := m 'in' k" := (bind m (fun x => k))
  (at level 10, x name, m at level 100, k at level 200).
Notation "'do' m 'in' k" := (bind m (fun _ => k))
  (at level 10, m at level 100, k at level 200).

Definition dquote : string := String (ascii_of_nat 34) EmptyString.
Definition newline : string := String (ascii_of_nat 10) EmptyString.

(** ** TempArtifactPlanner and SegmentPipeline: [removeSegments] *)

(** The variables of one call: the world, and the array [tempFiles]. *)
Record local : Type := { outside : world; tempFiles : list string }.

Definition partPath (i : nat) : string := "temp_part_" +:+ pretty i +:+ ".mp4".
Definition concatListPath : string := "temp_concat_list.txt".

Definition existsSync (path : string) (w : world) : bool :=
  bool_decide (is_Some (files w !! path)).
Definition unlinkSync (path : string) (w : world) : world :=
  {| files := delete path (files w); log := log w |}.
Definition writeFileSync (path content : string) (w : world) : world :=
  {| files := <[path := content]> (files w); log := log w |}.

Definition inWorld {A} (m : M world A) : M local A :=
  fun s => let '(r, w) := m (outside s) in
           (r, {| outside := w; tempFiles := tempFiles s |}).
Definition onWorld (f : world -> world) : M local unit :=
  fun s => (Ok tt, {| outside := f (outside s); tempFiles := tempFiles s |}).
Definition pushTemp (path : string) : M local unit :=
  fun s => (Ok tt, {| outside := outside s;
                      tempFiles := tempFiles s ++ [path] |}).

(** The [finally] block of [removeSegments]. *)
Definition cleanup (s : local) : local :=
  {| outside := foldl (fun w tempFile =>
                         if existsSync tempFile w then unlinkSync tempFile w
                         else w)
                      (outside s) (tempFiles s);
     tempFiles := tempFiles s |}.

Definition extractCommand (inputPath : string) (p : part) (out : string)
  : string :=
  "-i " +:+ dquote +:+ inputPath +:+ dquote +:+ " -ss " +:+ start p
  +:+ " -to " +:+ end_ p +:+ " -c copy " +:+ dquote +:+ out +:+ dquote
  +:+ " -y".

Definition concatCommand (outputPath : string) : string :=
  "-f concat -safe 0 -i " +:+ dquote +:+ concatListPath +:+ dquote
  +:+ " -c copy " +:+ dquote +:+ outputPath +:+ dquote +:+ " -y".

Definition copyCommand (inputPath outputPath : string) : string :=
  "-i " +:+ dquote +:+ inputPath +:+ dquote +:+ " -c copy " +:+ dquote
  +:+ outputPath +:+ dquote +:+ " -y".

Definition concatList (partPaths : list string) : string :=
  String.concat newline (map (fun path => "file '" +:+ path +:+ "'") partPaths).

Section Collaborators.

(** [getVideoInfo]: the probe's text for a path. *)
Variable probe : string -> world -> outcome.
(** [JSON.parse(info)] followed by [?.format?.duration]: [None] when the
    text is not JSON, [Some None] when the field is absent; the probe
    writes the duration as a string. *)
Variable jsonDuration : string -> option (option string).
(** [runFFmpegCommand]: what the encoder answers and the files it leaves. *)
Variable encoder : string -> world -> outcome * gmap string string.
(** [analyzeVideoWithGemini]: the text it returns or the error it throws. *)
Variable analysis : string -> string -> world -> outcome.
(** [ensureDirectoryExists] *)
Variable mkdir : string -> world -> outcome.

Definition logged (e : event) (w : world) : world :=
  {| files := files w; log := log w ++ [e] |}.

Definition getVideoInfo (path : string) : M world string :=
  fun w => (answer (probe path w), logged (ProbeCall path) w).

Definition runFFmpegCommand (command : string) : M world string :=
  fun w => let '(o, fs) := encoder command w in
           (answer o, {| files := fs; log := log w ++ [EncoderCall command] |}).

Definition analyzeVideoWithGemini (path prompt : string) : M world string :=
  fun w => (answer (analysis path prompt w), logged (AnalysisCall path prompt) w).

Definition ensureDirectoryExists (path : string) : M world unit :=
  fun w => ((fun _ => tt) <$> answer (mkdir path w), logged (MkdirCall path) w).

(** [JSON.parse(info)], [videoInfo?.format?.duration] and the test
    [!duration]. *)
Definition durationOf (info : string) : result string :=
  match jsonDuration info with
  | None => Err VideoInfoNotJson
  | Some None => Err NoVideoDuration
  | Some (Some duration) =>
      if decide (duration = EmptyString) then Err NoVideoDuration
      else Ok duration
  end.

(** [parseTimeToSeconds(duration).toFixed(6)] *)
Definition totalDurationOf (duration : string) : result string :=
  toFixed6 <$> parseStr duration.

(** The extraction loop, from index [i] on. *)
Fixpoint extractParts (inputPath : string) (parts : list part) (i : nat)
    (partPaths : list string) : M local (list string) :=
  match parts with
  | [] => ret partPaths
  | p :: rest =>
      do pushTemp (partPath i) in
      let* _ := inWorld (runFFmpegCommand (extractCommand inputPath p (partPath i))) in
      extractParts inputPath rest (S i) (partPaths ++ [partPath i])
  end.

(** The planning phase: everything up to the list of parts to keep. *)
Definition planning (inputPath : string) (segments : list segment)
  : M local (list part) :=
  let* sorted := liftR (sortSegments segments) in
  let* info := inWorld (getVideoInfo inputPath) in
  let* duration := liftR (durationOf info) in
  let* totalDuration := liftR (totalDurationOf duration) in
  liftR (partsToKeep totalDuration sorted).

(** The body of the [try] block. *)
Definition removeSegmentsBody (inputPath : string) (segments : list segment)
    (outputPath : string) : M local unit :=
  let* parts := planning inputPath segments in
  let* partPaths := extractParts inputPath parts 0 [] in
  if (0 <? length partPaths)%nat then
    do pushTemp concatListPath in
    do onWorld (writeFileSync concatListPath (concatList partPaths)) in
    let* _ := inWorld (runFFmpegCommand (concatCommand outputPath)) in
    ret tt
  else throw NoSegmentsToKeep.

(** One call of [removeSegments], with its local variables at the end. *)
Definition removeSegmentsRun (inputPath : string) (segments : list segment)
    (outputPath : string) (w : world) : result unit * local :=
  tryFinally (removeSegmentsBody inputPath segments outputPath) cleanup
    {| outside := w; tempFiles := [] |}.

Definition removeSegments (inputPath : string) (segments : list segment)
    (outputPath : string) : M world unit :=
  fun w => let '(r, s) := removeSegmentsRun inputPath segments outputPath w in
           (r, outside s).

(** ** Keep one event: [removeEventSegments] *)

Definition validatePath (path : string) (isInput : bool) : M world string :=
  fun w =>
    if decide (path = EmptyString) then (Err FilePathRequired, w)
    else if (isInput && negb (existsSync path w))%bool
         then (Err (InputFileMissing path), w)
         else (Ok path, w).

Definition keepPrompt (eventDescription : string) : string :=
  "Identify the segment in the video where the following event occurs: "
  +:+ dquote +:+ eventDescription +:+ dquote
  +:+ ". Provide the start and end timestamps in HH:MM:SS format for this segment. If the event spans multiple segments, provide the timestamps for the primary occurrence.".

(** Steps 3 to 5: what follows once exactly one segment was extracted. *)
Definition keepSegment (inputPath validatedInputPath validatedOutputPath
    : string) (segmentToKeep : segment) : M world unit :=
  let* info := getVideoInfo inputPath in
  let* duration := liftR (durationOf info) in
  let* totalDuration := liftR (totalDurationOf duration) in
  let* before := liftR (lessThan "00:00:00" (startTime segmentToKeep)) in
  let segmentsToRemove :=
    if before : bool
    then [{| startTime := "00:00:00"; endTime := startTime segmentToKeep |}]
    else [] in
  let* after := liftR (lessThan (endTime segmentToKeep) totalDuration) in
  let segmentsToRemove :=
    if after : bool
    then segmentsToRemove
         ++ [{| startTime := endTime segmentToKeep; endTime := totalDuration |}]
    else segmentsToRemove in
  if (0 <? length segmentsToRemove)%nat
  then removeSegments validatedInputPath segmentsToRemove validatedOutputPath
  else let* _ := runFFmpegCommand (copyCommand validatedInputPath validatedOutputPath) in
       ret tt.

Definition keptMessage (inputPath eventDescription outputPath : string)
  : string :=
  "Successfully kept the segment for event " +:+ dquote +:+ eventDescription
  +:+ dquote +:+ " from " +:+ inputPath +:+ ". Output saved to " +:+ outputPath.

Definition removeEventSegments (inputPath eventDescription outputPath : string)
  : M world string :=
  let* validatedInputPath := validatePath inputPath true in
  let* validatedOutputPath := validatePath outputPath false in
  do ensureDirectoryExists validatedOutputPath in
  tryRethrow
    (let* geminiResponse :=
       analyzeVideoWithGemini validatedInputPath (keepPrompt eventDescription) in
     let* segmentsToKeep := liftR (extractTimestampsFromResponse geminiResponse) in
     match segmentsToKeep with
     | [segmentToKeep] =>
         do keepSegment inputPath validatedInputPath validatedOutputPath
              segmentToKeep in
         ret (keptMessage inputPath eventDescription outputPath)
     | _ => throw (ExpectedOneSegment (length segmentsToKeep))
     end)
    FailedToProcess.

End Collaborators.

(** * Vocabulary of the statements *)

Definition le (x y : number) : Prop := Num.ltb y x = false.
Definition defined (x : number) : Prop := Num.isNaN x = false.
Definition nonneg (x : number) : Prop := Num.ltb x (Fin 0) = false.



(** The seconds of [h:m:sec] and of [m:sec], as the parser adds them up. *)
Definition hms (h m sec : string) : number :=
  Num.add (Num.add (Num.add (Fin 0) (Num.mul (Js.parseInt10 h) (Fin 3600)))
                   (Num.mul (Js.parseInt10 m) (Fin 60)))
          (Js.parseFloat sec).
Definition ms (m sec : string) : number :=
  Num.add (Num.add (Fin 0) (Num.mul (Js.parseInt10 m) (Fin 60)))
          (Js.parseFloat sec).

(** The shape [HH:MM:SS] with an optional fraction [.d+]. *)
Fixpoint all_digits (s : string) : bool :=
  match s with
  | EmptyString => true
  | String c r => Js.is_digit c && all_digits r
  end.

Definition hmsShape (m : string) : Prop :=
  exists h1 h2 m1 m2 s1 s2,
    Forall (fun c => Js.is_digit c = true) [h1; h2; m1; m2; s1; s2] /\
    m = String h1 (String h2 (String ":" (String m1 (String m2
          (String ":" (String s1 (String s2 EmptyString))))))).

Definition timestampShape (m : string) : Prop :=
  exists hms frac,
    hmsShape hms /\ m = hms +:+ frac /\
    (frac = EmptyString \/
     exists ds, frac = "." +:+ ds /\ ds <> EmptyString /\ all_digits ds = true).

(** The strings [ms] occur in [text] one after the other, without overlap. *)
Fixpoint inOrder (ms : list string) (text : string) : Prop :=
  match ms with
  | [] => True
  | m :: ms' =>
      exists pre post, text = pre +:+ m +:+ post /\ inOrder ms' post
  end.

(** The character before a position: the last one of the text [pre] that
    precedes it, or [prev] when there is none. *)
Definition before (prev : option ascii) (pre : string) : option ascii :=
  match pre with
  | EmptyString => prev
  | _ => Some (Regex.last_char "0" pre)
  end.

(** ** The planner as the specification words it

    Sort the remove intervals ascending by start (keeping the order of
    equal starts); walk them with a cursor that begins at 0; for each
    interval emit [cursor, start) when [cursor < start], then move the
    cursor to the interval's end; after the walk emit [cursor, total) when
    [cursor < total]. *)

Module Spec.

Record interval : Type := { lo : number; hi : number }.

Fixpoint insert (x : interval) (l : list interval) : list interval :=
  match l with
  | [] => [x]
  | y :: l' => if Num.ltb (lo y) (lo x) then y :: insert x l' else x :: l
  end.

Definition sortByStart (rs : list interval) : list interval :=
  foldr insert [] rs.

Fixpoint walkFrom (cursor total : number) (rs : list interval)
  : list interval :=
  match rs with
  | [] =>
      if Num.ltb cursor total then [{| lo := cursor; hi := total |}] else []
  | r :: rs' =>
      (if Num.ltb cursor (lo r) then [{| lo := cursor; hi := lo r |}] else [])
      ++ walkFrom (hi r) total rs'
  end.

Definition retain (total : number) (rs : list interval) : list interval :=
  walkFrom (Fin 0) total (sortByStart rs).

Definition wf (r : interval) : Prop := defined (lo r) /\ defined (hi r).
Definition byStart (r r' : interval) : Prop := le (lo r) (lo r').

End Spec.

(** The seconds a segment and a part of the code stand for. *)
Definition segmentIs (s : segment) (r : Spec.interval) : Prop :=
  parseStr (startTime s) = Ok (Spec.lo r)
  /\ parseStr (endTime s) = Ok (Spec.hi r).

Definition partIs (p : part) (r : Spec.interval) : Prop :=
  parseStr (start p) = Ok (Spec.lo r) /\ parseStr (end_ p) = Ok (Spec.hi r).






(** The errors the planning phase can end with. *)
Definition planningError (e : error) : Prop :=
  match e with
  | TimeEmpty | InvalidTimeFormat _ | TimeResultedInNaN _
  | VideoInfoNotJson | NoVideoDuration | Collaborator _ => True
  | _ => False
  end.

Definition timeError (e : error) : Prop :=
  match e with
  | TimeEmpty | InvalidTimeFormat _ | TimeResultedInNaN _ => True
  | _ => False
  end.

(** The state the body of [removeSegments] starts from. *)
Definition entry (w : world) : local := {| outside := w; tempFiles := [] |}.

(** An encoder that leaves no file but the output its command names:
    the part path of an extraction, the output path of a concatenation. *)
Definition confined
    (encoder : string -> world -> outcome * gmap string string)
    (inputPath outputPath : string) : Prop :=
  (forall p out w,
      dom (snd (encoder (extractCommand inputPath p out) w))
      ⊆ dom (files w) ∪ {[out]})
  /\ (forall w,
        dom (snd (encoder (concatCommand outputPath) w))
        ⊆ dom (files w) ∪ {[outputPath]}).

(** ** Sample collaborators for the closed examples *)

Definition sampleWorld : world :=
  {| files := {[ "in.mp4" := "video" ]}; log := [] |}.
Definition sampleProbe : string -> world -> outcome :=
  fun _ _ => Done "probe output".
Definition sampleJson (duration : string) : string -> option (option string) :=
  fun _ => Some (Some duration).
(** An encoder that fails every command and writes nothing. *)
Definition failingEncoder : string -> world -> outcome * gmap string string :=
  fun _ w => (Failed "Conversion failed!", files w).
(** An encoder that writes the three outputs of the call that removes
    [{10,20}] from [in.mp4] into [out.mp4], and fails any other command. *)
Definition sampleEncoder : string -> world -> outcome * gmap string string :=
  fun command w =>
    if decide (command =
               extractCommand "in.mp4"
                 {| start := "00:00:00"; end_ := "10" |} (partPath 0))
    then (Done "done", <[partPath 0 := "first part"]> (files w))
    else if decide (command =
                    extractCommand "in.mp4"
                      {| start := "20"; end_ := "100.000000" |} (partPath 1))
    then (Done "done", <[partPath 1 := "second part"]> (files w))
    else if decide (command = concatCommand "out.mp4")
    then (Done "done", <["out.mp4" := "edited video"]> (files w))
    else (Failed "Conversion failed!", files w).
Definition sampleAnalysis (text : string) : string -> string -> world -> outcome :=
  fun _ _ _ => Done text.
Definition sampleMkdir : string -> world -> outcome :=
  fun _ _ => Done "created".

(** ** Points of the timeline *)

(** The time [t] lies in the window that starts at [a] and ends before
    [b]. *)
Definition between (t : number) (a b : string) : Prop :=
  exists x y, parseStr a = Ok x /\ parseStr b = Ok y
              /\ le x t /\ Num.ltb t y = true.

Definition inside (t : number) (r : Spec.interval) : Prop :=
  le (Spec.lo r) t /\ Num.ltb t (Spec.hi r) = true.

(** In the order of the list the ends do not decrease. *)
Definition endsAscend (s s' : segment) : Prop :=
  lessThan (endTime s') (endTime s) = Ok false.

Definition byEnd (r r' : Spec.interval) : Prop := le (Spec.hi r) (Spec.hi r').

(** The seconds of a segment, [NaN] standing for a time that does not
    parse. *)
Definition secondsOr (s : string) : number :=
  match parseStr s with Ok x => x | Err _ => NaN end.
Definition intervalOf (s : segment) : Spec.interval :=
  {| Spec.lo := secondsOr (startTime s); Spec.hi := secondsOr (endTime s) |}.
Definition parses (s : segment) : Prop := segmentIs s (intervalOf s).

(** The characters of a timestamp: digits, the colon and the dot. *)
Definition timeChar (c : ascii) : bool :=
  (Js.is_digit c || Ascii.eqb c ":" || Ascii.eqb c ".")%bool.

Fixpoint all_chars (P : ascii -> bool) (s : string) : bool :=
  match s with
  | EmptyString => true
  | String c r => P c && all_chars P r
  end.

(** A time string that parses to a finite number of seconds that is not
    negative. *)
Definition parsesToSeconds (s : string) : Prop :=
  exists q, parseStr s = Ok (Fin q) /\ (0 <= q)%Q.

(** * Properties *)

(** ** Numbers *)

Lemma Qle_bool_false (p q : Q) : Qle_bool p q = false <-> (q < p)%Q.
Proof.
  split.
  - intros H. apply Qnot_le_lt. intros Hle.
    apply Qle_bool_iff in Hle. congruence.
  - intros H. destruct (Qle_bool p q) eqn:E; [|reflexivity].
    apply Qle_bool_iff in E. exfalso. exact (Qlt_not_le _ _ H E).
Qed.

Lemma ltb_irrefl (x : number) : Num.ltb x x = false.
Proof.
  destruct x as [|[]|q]; try reflexivity.
  simpl. rewrite negb_false_iff. apply Qle_bool_iff. apply Qle_refl.
Qed.

Lemma ltb_le (x y : number) : Num.ltb x y = true -> le x y.
Proof.
  unfold le. destruct x as [|[]|p], y as [|[]|q]; simpl; try congruence.
  rewrite negb_true_iff, negb_false_iff, Qle_bool_false, Qle_bool_iff.
  apply Qlt_le_weak.
Qed.

Lemma le_trans (x y z : number) :
  defined y -> le x y -> le y z -> le x z.
Proof.
  unfold le, defined.
  destruct x as [|[]|p], y as [|[]|q], z as [|[]|r]; simpl; try congruence.
  intros _. rewrite !negb_false_iff, !Qle_bool_iff. apply Qle_trans.
Qed.

Lemma ltb_le_trans (x y z : number) :
  defined z -> Num.ltb x y = true -> le y z -> Num.ltb x z = true.
Proof.
  unfold le, defined.
  destruct x as [|[]|p], y as [|[]|q], z as [|[]|r]; simpl; try congruence.
  intros _.
  rewrite !negb_true_iff, negb_false_iff, !Qle_bool_false, Qle_bool_iff.
  apply Qlt_le_trans.
Qed.

(** The comparator is negative exactly when its left argument is the
    smaller one. *)
Lemma sub_negative (x y : number) :
  defined x -> defined y -> Num.ltb (sub x y) (Fin 0) = Num.ltb x y.
Proof.
  unfold defined, sub.
  destruct x as [|[]|p], y as [|[]|q]; simpl; try congruence; intros _ _.
  f_equal.
  destruct (Qle_bool 0 (p + -1 * q)) eqn:E1, (Qle_bool q p) eqn:E2;
    try reflexivity.
  - apply Qle_bool_iff in E1. apply Qle_bool_false in E2. lra.
  - apply Qle_bool_false in E1. apply Qle_bool_iff in E2. lra.
Qed.

(** ** TimeCode *)









(** [parseTimeToSeconds] on a string, by the shape of the trimmed text. *)
Lemma parseStr_unfold (s : string) :
  parseStr s =
  let time := Js.trim s in
  if decide (time = EmptyString) then Err TimeEmpty
  else if Js.includes_char ":" time then
    match Js.split ":" time with
    | [h; m; sec] =>
        if Num.isNaN (hms h m sec) then Err (TimeResultedInNaN s)
        else Ok (hms h m sec)
    | [m; sec] =>
        if Num.isNaN (ms m sec) then Err (TimeResultedInNaN s)
        else Ok (ms m sec)
    | _ => Err (InvalidTimeFormat s)
    end
  else if Num.isNaN (Js.parseFloat time) then Err (InvalidTimeFormat s)
  else Ok (Js.parseFloat time).
Proof.
  unfold parseStr, parseTimeToSeconds, hms, ms. cbv zeta.
  destruct (decide (Js.trim s = EmptyString)); [reflexivity|].
  destruct (Js.includes_char ":" (Js.trim s)); [|reflexivity].
  destruct (Js.split ":" (Js.trim s)) as [|p0 [|p1 [|p2 [|p3 l]]]];
    reflexivity.
Qed.

Lemma parseStr_defined (s : string) (v : number) :
  parseStr s = Ok v -> defined v.
Proof.
  rewrite parseStr_unfold. cbv zeta. unfold defined.
  repeat (case_match; try discriminate); intros [= <-]; assumption.
Qed.

Lemma split_no_separator (c : ascii) (s : string) :
  Js.includes_char c s = false -> Js.split c s = [s].
Proof.
  induction s as [|d r IH]; simpl; [reflexivity|].
  destruct (Ascii.eqb c d); [discriminate|].
  intros H. rewrite (IH H). reflexivity.
Qed.


Lemma add_Fin (p q : Q) : Num.add (Fin p) (Fin q) = Fin (p + q).
Proof. reflexivity. Qed.

Lemma mul_Fin (p q : Q) : Num.mul (Fin p) (Fin q) = Fin (p * q).
Proof. reflexivity. Qed.





(** *** Inputs without a minus sign *)

Lemma includes_trimStart (c : ascii) (s : string) :
  Js.includes_char c s = false -> Js.includes_char c (Js.trimStart s) = false.
Proof.
  induction s as [|d r IH]; simpl; [reflexivity|].
  destruct (Ascii.eqb c d) eqn:E; [discriminate|].
  intros H. destruct (Js.is_white d); [auto|]. simpl. rewrite E. exact H.
Qed.

Lemma includes_trimEnd (c : ascii) (s : string) :
  Js.includes_char c s = false -> Js.includes_char c (Js.trimEnd s) = false.
Proof.
  induction s as [|d r IH]; simpl; [reflexivity|].
  destruct (Ascii.eqb c d) eqn:E; [discriminate|].
  intros H. specialize (IH H).
  destruct (Js.trimEnd r) as [|e r'].
  - destruct (Js.is_white d); simpl; [reflexivity|]. rewrite E. reflexivity.
  - simpl. rewrite E. exact IH.
Qed.

Lemma includes_trim (c : ascii) (s : string) :
  Js.includes_char c s = false -> Js.includes_char c (Js.trim s) = false.
Proof. intros H. apply includes_trimEnd, includes_trimStart, H. Qed.

Lemma includes_split (c sep : ascii) (s : string) :
  Js.includes_char c s = false ->
  Forall (fun p => Js.includes_char c p = false) (Js.split sep s).
Proof.
  induction s as [|d r IH]; simpl.
  - intros _. repeat constructor.
  - destruct (Ascii.eqb c d) eqn:E; [discriminate|].
    intros H. specialize (IH H).
    destruct (Ascii.eqb sep d).
    + constructor; [reflexivity | exact IH].
    + destruct (Js.split sep r) as [|p ps].
      * repeat constructor. simpl. rewrite E. reflexivity.
      * inversion IH; subst. constructor; [|assumption].
        simpl. rewrite E. assumption.
Qed.

Lemma read_sign_plain (s : string) :
  Js.includes_char "-" s = false -> fst (Js.read_sign s) = false.
Proof.
  destruct s as [|d r]; [reflexivity|].
  destruct d as [[] [] [] [] [] [] [] []]; intros H; try reflexivity.
  discriminate H.
Qed.

Lemma is_digit_val (c : ascii) : Js.is_digit c = true -> 0 <= Js.digit_val c.
Proof.
  unfold Js.is_digit, Js.digit_val. intros H.
  apply andb_true_iff in H as [H _]. apply N.leb_le in H. lia.
Qed.

Lemma span_digits_nonneg (s : string) :
  Forall (fun d => 0 <= d) (fst (Js.span_digits s)).
Proof.
  induction s as [|c r IH]; simpl; [constructor|].
  destruct (Js.is_digit c) eqn:E; [|constructor].
  destruct (Js.span_digits r) as [ds rest]. simpl in *.
  constructor; [apply is_digit_val, E | exact IH].
Qed.

Lemma fold_digits_nonneg (ds : list Z) (acc : Z) :
  0 <= acc -> Forall (fun d => 0 <= d) ds ->
  0 <= fold_left (fun acc d => 10 * acc + d) ds acc.
Proof.
  revert acc. induction ds as [|d ds IH]; simpl; intros acc Ha Hd; [lia|].
  inversion Hd; subst. apply IH; [lia | assumption].
Qed.

Lemma digits_value_nonneg (ds : list Z) :
  Forall (fun d => 0 <= d) ds -> 0 <= Js.digits_value ds.
Proof. apply fold_digits_nonneg. lia. Qed.

Lemma scale10_nonneg (m e : Z) : 0 <= m -> (0 <= Js.scale10 m e)%Q.
Proof.
  intros Hm. unfold Js.scale10. destruct (0 <=? e) eqn:E.
  - apply Z.leb_le in E. unfold Qle, inject_Z. simpl.
    pose proof (Z.pow_nonneg 10 e). nia.
  - unfold Qle. simpl. lia.
Qed.

Lemma nonneg_Fin (q : Q) : nonneg (Fin q) <-> (0 <= q)%Q.
Proof.
  unfold nonneg. simpl. rewrite negb_false_iff. apply Qle_bool_iff.
Qed.

Lemma nonneg_add (x y : number) :
  nonneg x -> nonneg y -> nonneg (Num.add x y).
Proof.
  destruct x as [|[]|p], y as [|[]|q]; try (intros; reflexivity);
    try (unfold nonneg; simpl; congruence).
  rewrite !nonneg_Fin, add_Fin, nonneg_Fin. intros; lra.
Qed.

Lemma nonneg_scaled (x : number) (k : Q) :
  (0 < Qnum k)%Z -> nonneg x -> nonneg (Num.mul x (Fin k)).
Proof.
  intros Hk. destruct x as [|[]|p]; try (intros; reflexivity).
  - unfold nonneg; simpl; congruence.
  - unfold Num.mul, Num.Qis_zero, Num.Qsign_neg.
    destruct (Z.eqb_spec (Qnum k) 0); [lia|].
    destruct (Z.ltb_spec (Qnum k) 0); [lia|]. reflexivity.
  - rewrite mul_Fin, !nonneg_Fin. intros Hp.
    apply Qmult_le_0_compat; [exact Hp|]. unfold Qle. simpl. lia.
Qed.

Lemma parseInt10_nonneg (s : string) :
  Js.includes_char "-" s = false -> nonneg (Js.parseInt10 s).
Proof.
  intros H. apply (includes_trimStart "-") in H. apply read_sign_plain in H.
  unfold Js.parseInt10.
  destruct (Js.read_sign (Js.trimStart s)) as [neg u]. simpl in H. subst neg.
  pose proof (span_digits_nonneg u) as Hd.
  destruct (Js.span_digits u) as [[|d ds] rest]; [reflexivity|].
  cbn [fst] in Hd. apply digits_value_nonneg in Hd.
  unfold Num.of_Z. apply nonneg_Fin. unfold Qle, inject_Z.
  cbn [Qnum Qden Js.signed]. lia.
Qed.

Lemma decimal_nonneg (ip fp : list Z) (rest : string) :
  Forall (fun d => 0 <= d) ip -> Forall (fun d => 0 <= d) fp ->
  nonneg (Js.decimal false ip fp rest).
Proof.
  intros Hi Hf. unfold Js.decimal. apply nonneg_Fin, scale10_nonneg.
  simpl. apply digits_value_nonneg. apply Forall_app. split; assumption.
Qed.

Lemma parseFloat_nonneg (s : string) :
  Js.includes_char "-" s = false -> nonneg (Js.parseFloat s).
Proof.
  intros H. apply (includes_trimStart "-") in H. apply read_sign_plain in H.
  unfold Js.parseFloat.
  destruct (Js.read_sign (Js.trimStart s)) as [neg u]. simpl in H. subst neg.
  destruct (String.prefix "Infinity" u); [reflexivity|].
  pose proof (span_digits_nonneg u) as Hi.
  destruct (Js.span_digits u) as [ip r1]. simpl in Hi.
  assert (forall fp r2, Forall (fun d => 0 <= d) fp ->
            nonneg (match ip, fp with
                    | [], [] => NaN
                    | _, _ => Js.decimal false ip fp r2
                    end)) as Hdot.
  { intros fp r2 Hf. destruct ip, fp; try reflexivity;
      apply decimal_nonneg; assumption. }
  assert (nonneg (match ip with
                  | [] => NaN
                  | _ => Js.decimal false ip [] r1
                  end)) as Hplain.
  { destruct ip; [reflexivity|]. apply decimal_nonneg; [assumption|constructor]. }
  destruct r1 as [|c r]; [exact Hplain|].
  destruct (Ascii.eqb_spec c ".") as [->|Hne].
  - pose proof (span_digits_nonneg r) as Hf.
    destruct (Js.span_digits r) as [fp r2]. apply Hdot, Hf.
  - destruct c as [[] [] [] [] [] [] [] []]; try exact Hplain.
    congruence.
Qed.

(** C8, as the code has it.  The value [parseTimeToSeconds] returns is not
    negative whenever the input has no minus sign. *)
Theorem parseTimeToSeconds_nonneg (s : string) (v : number) :
  parseStr s = Ok v ->
  Js.includes_char "-" s = false ->
  Num.ltb v (Fin 0) = false.
Proof.
  intros Hv Hs. apply (includes_trim "-") in Hs.
  rewrite parseStr_unfold in Hv. cbv zeta in Hv.
  destruct (decide (Js.trim s = EmptyString)); [discriminate|].
  destruct (Js.includes_char ":" (Js.trim s)).
  - pose proof (includes_split "-" ":" _ Hs) as Hp.
    destruct (Js.split ":" (Js.trim s)) as [|p0 [|p1 [|p2 [|p3 l]]]];
      try discriminate.
    + destruct (Num.isNaN (ms p0 p1)); [discriminate|]. injection Hv as <-.
      inversion Hp as [|? ? H0 Hp1]; subst. inversion Hp1 as [|? ? H1 _]; subst.
      unfold ms. apply nonneg_add; [|apply parseFloat_nonneg, H1].
      apply nonneg_add; [reflexivity|].
      apply nonneg_scaled; [simpl; lia | apply parseInt10_nonneg, H0].
    + destruct (Num.isNaN (hms p0 p1 p2)); [discriminate|]. injection Hv as <-.
      inversion Hp as [|? ? H0 Hp1]; subst. inversion Hp1 as [|? ? H1 Hp2]; subst.
      inversion Hp2 as [|? ? H2 _]; subst.
      unfold hms. apply nonneg_add; [|apply parseFloat_nonneg, H2].
      apply nonneg_add; [apply nonneg_add; [reflexivity|] |].
      * apply nonneg_scaled; [simpl; lia | apply parseInt10_nonneg, H0].
      * apply nonneg_scaled; [simpl; lia | apply parseInt10_nonneg, H1].
  - destruct (Num.isNaN (Js.parseFloat (Js.trim s))); [discriminate|].
    injection Hv as <-. apply parseFloat_nonneg, Hs.
Qed.

Lemma parseTimeToSeconds_nonneg_witness :
  parseStr "01:02:03.5" = Ok (Fin 3723.5) /\
  Num.ltb (Fin 3723.5) (Fin 0) = false.
Proof.
  split; [reflexivity|].
  exact (parseTimeToSeconds_nonneg "01:02:03.5" (Fin 3723.5) eq_refl eq_refl).
Defined.

(** C8 as stated fails: a minus sign goes through [parseFloat] unchecked,
    and [parseTimeToSeconds("-5")] is [-5]. *)
Lemma parseTimeToSeconds_negative :
  parseStr "-5" = Ok (Fin (-5)) /\ Num.ltb (Fin (-5)) (Fin 0) = true.
Proof. split; reflexivity. Qed.

(** ** TimestampExtractor *)

Lemma append_cons (c : ascii) (a b : string) :
  String c a +:+ b = String c (a +:+ b).
Proof. reflexivity. Qed.

Lemma append_nil (b : string) : EmptyString +:+ b = b.
Proof. reflexivity. Qed.

Lemma take_drop (k : nat) (s : string) :
  Regex.string_take k s +:+ Regex.string_drop k s = s.
Proof.
  revert s. induction k as [|k IH]; intros [|c r]; simpl; try reflexivity.
  rewrite append_cons, IH. reflexivity.
Qed.

Lemma all_digits_take (k : nat) (s : string) :
  all_digits s = true -> all_digits (Regex.string_take k s) = true.
Proof.
  revert s. induction k as [|k IH]; intros [|c r]; simpl; try reflexivity.
  intros H. apply andb_true_iff in H as [Hc Hr].
  rewrite Hc. simpl. apply IH, Hr.
Qed.

Lemma digit_run_spec (s : string) :
  all_digits (fst (Regex.digit_run s)) = true /\
  fst (Regex.digit_run s) +:+ snd (Regex.digit_run s) = s.
Proof.
  induction s as [|c r [IH1 IH2]]; simpl; [split; reflexivity|].
  destruct (Js.is_digit c) eqn:E; [|split; reflexivity].
  destruct (Regex.digit_run r) as [ds rest]. simpl in *.
  rewrite E, IH1, append_cons, IH2. split; reflexivity.
Qed.

Lemma string_app_assoc (a b c : string) : (a +:+ b) +:+ c = a +:+ (b +:+ c).
Proof.
  induction a as [|x a IH]; [reflexivity|].
  rewrite !append_cons, IH. reflexivity.
Qed.

Lemma digits_then_boundary_spec (k : nat) (ds rest frac after : string) :
  all_digits ds = true -> (k <= String.length ds)%nat ->
  Regex.digits_then_boundary k ds rest = Some (frac, after) ->
  all_digits frac = true /\ frac <> EmptyString /\ frac +:+ after = ds +:+ rest.
Proof.
  intros Hd. induction k as [|k IH]; simpl; [discriminate|].
  intros Hk. destruct ds as [|c r] eqn:Eds; [simpl in Hk; lia|].
  destruct (Regex.boundary _ _).
  - intros [= <- <-]. split; [|split].
    + change (String c (Regex.string_take k r))
        with (Regex.string_take (S k) (String c r)).
      apply all_digits_take, Hd.
    + discriminate.
    + rewrite <- string_app_assoc.
      change (String c (Regex.string_take k r))
        with (Regex.string_take (S k) (String c r)).
      change (Regex.string_drop k r)
        with (Regex.string_drop (S k) (String c r)).
      rewrite take_drop. reflexivity.
  - apply IH. lia.
Qed.

Lemma core_spec (s hms rest : string) :
  Regex.core s = Some (hms, rest) -> hmsShape hms /\ s = hms +:+ rest.
Proof.
  unfold Regex.core.
  destruct s as [|h1 [|h2 [|c1 [|m1 [|m2 [|c2 [|s1 [|s2 r]]]]]]]];
    try discriminate.
  destruct (_ && _)%bool eqn:E; [|discriminate].
  intros [= <- <-].
  do 7 (apply andb_true_iff in E as [E ?]).
  repeat match goal with
         | H : Ascii.eqb _ _ = true |- _ => apply Ascii.eqb_eq in H; subst
         end.
  split; [|reflexivity].
  exists h1, h2, m1, m2, s1, s2. split; [|reflexivity].
  repeat constructor; assumption.
Qed.

Lemma matchAt_spec (prev : option ascii) (s m rest : string) :
  Regex.matchAt prev s = Some (m, rest) ->
  timestampShape m /\ s = m +:+ rest.
Proof.
  unfold Regex.matchAt.
  destruct (Regex.boundary prev s); [|discriminate].
  destruct (Regex.core s) as [[hms r0]|] eqn:Ec; [|discriminate].
  apply core_spec in Ec as [Hs ->].
  assert (forall o : option (string * string),
             o = (if Regex.boundary (Some (Regex.last_char "0" hms)) r0
                  then Some (hms, r0) else None) ->
             o = Some (m, rest) ->
             timestampShape m /\ hms +:+ r0 = m +:+ rest) as Hplain.
  { intros o ->. destruct (Regex.boundary _ r0); [|discriminate].
    intros [= <- <-]. split; [|reflexivity].
    exists hms, EmptyString. split; [exact Hs|]. split; [|left; reflexivity].
    clear. induction hms as [|c h IH]; [reflexivity|].
    rewrite append_cons, <- IH. reflexivity. }
  destruct r0 as [|c r]; [apply Hplain; reflexivity|].
  destruct (Ascii.eqb_spec c ".") as [->|Hne].
  - pose proof (digit_run_spec r) as [Hd Happ].
    destruct (Regex.digit_run r) as [ds r']. simpl in Hd, Happ.
    destruct (Regex.digits_then_boundary (String.length ds) ds r')
      as [[frac after]|] eqn:Ef.
    + apply digits_then_boundary_spec in Ef as (Hf & Hne & Hfa);
        [|exact Hd|lia].
      intros [= <- <-]. split.
      * exists hms, ("." +:+ frac). split; [exact Hs|]. split; [reflexivity|].
        right. exists frac. auto.
      * rewrite string_app_assoc. f_equal.
        change (String "." r = String "." (frac +:+ after)).
        rewrite Hfa, Happ. reflexivity.
    + apply Hplain. reflexivity.
  - destruct c as [[] [] [] [] [] [] [] []];
      try (apply Hplain; reflexivity).
    congruence.
Qed.

Lemma timestampShape_length (m : string) :
  timestampShape m -> exists c m', m = String c m'.
Proof.
  intros (hms & frac & (h1 & ? & ? & ? & ? & ? & _ & ->) & -> & _).
  rewrite append_cons. eauto.
Qed.

Lemma scan_skip (pre rest : string) (prev : option ascii) :
  exists prev',
    Regex.scan prev (String.length pre) (pre +:+ rest) = Regex.scan prev' 0 rest.
Proof.
  revert prev. induction pre as [|c p IH]; intros prev.
  - exists prev. reflexivity.
  - destruct (IH (Some c)) as [prev' H]. exists prev'. exact H.
Qed.

Lemma inOrder_cons (c : ascii) (ms : list string) (text : string) :
  inOrder ms text -> inOrder ms (String c text).
Proof.
  destruct ms as [|m ms]; [trivial|].
  intros (pre & post & -> & H). exists (String c pre), post. split; [|exact H].
  reflexivity.
Qed.

Lemma app_length_string (a b : string) :
  String.length (a +:+ b) = (String.length a + String.length b)%nat.
Proof.
  induction a as [|c a IH]; [reflexivity|].
  rewrite append_cons. simpl. rewrite IH. reflexivity.
Qed.

Lemma scan_spec (n : nat) :
  forall (text : string) (prev : option ascii),
    (String.length text <= n)%nat ->
    Forall timestampShape (Regex.scan prev 0 text)
    /\ inOrder (Regex.scan prev 0 text) text.
Proof.
  induction n as [|n IH]; intros [|c r] prev Hn; simpl in Hn;
    try (split; [constructor | exact I]); [lia|].
  simpl.
  destruct (Regex.matchAt prev (String c r)) as [[m rest]|] eqn:Em.
  - apply matchAt_spec in Em as [Hm Happ].
    destruct (timestampShape_length _ Hm) as (c' & m' & ->).
    rewrite append_cons in Happ. injection Happ as <- ->.
    replace (String.length (String c m') - 1)%nat with (String.length m')
      by (simpl; lia).
    destruct (scan_skip m' rest (Some c)) as [prev' ->].
    destruct (IH rest prev') as [H1 H2].
    { rewrite app_length_string in Hn. lia. }
    split; [constructor; assumption|].
    exists EmptyString, rest. split; [reflexivity | exact H2].
  - destruct (IH r (Some c)) as [H1 H2]; [lia|].
    split; [exact H1 | apply inOrder_cons, H2].
Qed.

Lemma pairUp_length (ms : list string) :
  (length (pairUp ms) = length ms / 2)%nat
  /\ forall a, (length (pairUp (a :: ms)) = S (length ms) / 2)%nat.
Proof.
  induction ms as [|b ms [IH1 IH2]]; [split; reflexivity|].
  split; [apply IH2|]. intros a. simpl pairUp. simpl length. rewrite IH1.
  change (S (S (length ms))) with (1 * 2 + length ms)%nat.
  rewrite Nat.div_add_l by lia. lia.
Qed.

Lemma pairUp_lookup (ms : list string) :
  (forall k a b,
      ms !! (2 * k)%nat = Some a -> ms !! (2 * k + 1)%nat = Some b ->
      pairUp ms !! k = Some {| startTime := a; endTime := b |})
  /\ forall x k a b,
      (x :: ms) !! (2 * k)%nat = Some a ->
      (x :: ms) !! (2 * k + 1)%nat = Some b ->
      pairUp (x :: ms) !! k = Some {| startTime := a; endTime := b |}.
Proof.
  induction ms as [|y ms [IH1 IH2]].
  - split; [intros k a b H; destruct k; discriminate|].
    intros x [|k] a b; simpl; [discriminate|].
    replace (k + S (k + 0))%nat with (S (2 * k)) by lia. discriminate.
  - split; [apply IH2|].
    intros x [|k] a b.
    + simpl. intros [= <-] [= <-]. reflexivity.
    + replace (2 * S k)%nat with (S (S (2 * k))) by lia.
      replace (S (S (2 * k)) + 1)%nat with (S (S (2 * k + 1))) by lia.
      simpl lookup. apply IH1.
Qed.

Lemma matchAt_empty (prev : option ascii) :
  Regex.matchAt prev EmptyString = None.
Proof. unfold Regex.matchAt. destruct (Regex.boundary prev _); reflexivity. Qed.

Lemma before_cons (prev : option ascii) (c : ascii) (pre : string) :
  before prev (String c pre) = before (Some c) pre.
Proof. destruct pre; reflexivity. Qed.

Lemma scan_nil (text : string) :
  forall prev, Regex.scan prev 0 text = [] ->
  forall pre post, text = pre +:+ post ->
  Regex.matchAt (before prev pre) post = None.
Proof.
  induction text as [|c r IH]; intros prev Hs pre post E.
  - destruct pre; [|discriminate]. rewrite append_nil in E. subst post.
    apply matchAt_empty.
  - simpl in Hs.
    destruct (Regex.matchAt prev (String c r)) as [[m rest]|] eqn:Em;
      [discriminate|].
    destruct pre as [|c' pre'].
    + rewrite append_nil in E. subst post. exact Em.
    + rewrite append_cons in E. injection E as <- E.
      rewrite before_cons. apply (IH _ Hs _ _ E).
Qed.

Lemma extractTimestamps_unfold (text : string) :
  extractTimestampsFromResponse text =
  if (length (Regex.matchAll text) <? 2)%nat then Err NoValidTimestamps
  else Ok (pairUp (Regex.matchAll text)).
Proof.
  unfold extractTimestampsFromResponse.
  destruct (Regex.matchAll text) as [|a [|b l]]; reflexivity.
Qed.

(** C6. The extractor collects the matches of the pattern from left to
    right, each of the shape [HH:MM:SS] with an optional fraction and each
    found in the text after the one before; it pairs match [2k] with match
    [2k+1] and drops an unpaired last one; it fails with
    [NoValidTimestamps] exactly when there are fewer than two matches (and
    when there is none, no position of the text matches).  One match
    fails, four give two pairs in the order of the text, and a pair whose
    end is before its start is returned as it is. *)
Theorem extractTimestamps_pairs :
  (forall text,
      extractTimestampsFromResponse text =
      if (length (Regex.matchAll text) <? 2)%nat then Err NoValidTimestamps
      else Ok (pairUp (Regex.matchAll text))) /\
  (forall text,
      Forall timestampShape (Regex.matchAll text)
      /\ inOrder (Regex.matchAll text) text) /\
  (forall text, Regex.matchAll text = [] ->
      forall pre post, text = pre +:+ post ->
      Regex.matchAt (before None pre) post = None) /\
  (forall ms : list string,
      (length (pairUp ms) = length ms / 2)%nat /\
      forall k a b,
        ms !! (2 * k)%nat = Some a -> ms !! (2 * k + 1)%nat = Some b ->
        pairUp ms !! k = Some {| startTime := a; endTime := b |}) /\
  (forall text m, Regex.matchAll text = [m] ->
      extractTimestampsFromResponse text = Err NoValidTimestamps) /\
  (forall text m0 m1 m2 m3, Regex.matchAll text = [m0; m1; m2; m3] ->
      extractTimestampsFromResponse text =
      Ok [{| startTime := m0; endTime := m1 |};
          {| startTime := m2; endTime := m3 |}]) /\
  extractTimestampsFromResponse "The save happens at 00:01:05." =
    Err NoValidTimestamps /\
  extractTimestampsFromResponse
    "First from 00:00:05 to 00:00:09.5, then from 00:01:10 to 00:01:20." =
    Ok [{| startTime := "00:00:05"; endTime := "00:00:09.5" |};
        {| startTime := "00:01:10"; endTime := "00:01:20" |}] /\
  extractTimestampsFromResponse "It ends at 00:00:30 and starts at 00:00:10" =
    Ok [{| startTime := "00:00:30"; endTime := "00:00:10" |}].
Proof.
  pose proof extractTimestamps_unfold as Hmain.
  split; [exact Hmain|].
  split; [intros text; apply (scan_spec (String.length text)); lia|].
  split; [intros text; apply scan_nil|].
  split; [intros ms; split; [apply pairUp_length | apply pairUp_lookup]|].
  split; [intros text m H; rewrite Hmain, H; reflexivity|].
  split; [intros text m0 m1 m2 m3 H; rewrite Hmain, H; reflexivity|].
  repeat split; vm_compute; reflexivity.
Qed.

Lemma extractTimestamps_pairs_witness :
  Regex.matchAll "00:00:01 00:00:02 00:00:03 00:00:04" =
    ["00:00:01"; "00:00:02"; "00:00:03"; "00:00:04"] /\
  extractTimestampsFromResponse "00:00:01 00:00:02 00:00:03 00:00:04" =
    Ok [{| startTime := "00:00:01"; endTime := "00:00:02" |};
        {| startTime := "00:00:03"; endTime := "00:00:04" |}].
Proof.
  split; [reflexivity|].
  exact (proj1 (proj2 (proj2 (proj2 (proj2 (proj2 extractTimestamps_pairs)))))
           "00:00:01 00:00:02 00:00:03 00:00:04"
           "00:00:01" "00:00:02" "00:00:03" "00:00:04" eq_refl).
Defined.

(** ** SegmentPlanner *)

Section SpecPlanner.

Import Spec.

Lemma Forall_insert (P : interval -> Prop) (x : interval) (l : list interval) :
  Forall P (insert x l) <-> P x /\ Forall P l.
Proof.
  induction l as [|y l IH]; simpl.
  - rewrite Forall_singleton, Forall_nil. tauto.
  - destruct (Num.ltb (lo y) (lo x)).
    + rewrite !Forall_cons, IH. tauto.
    + rewrite !Forall_cons. tauto.
Qed.

Lemma Forall_sortByStart (P : interval -> Prop) (rs : list interval) :
  Forall P (sortByStart rs) <-> Forall P rs.
Proof.
  induction rs as [|r rs IH]; simpl; [reflexivity|].
  rewrite Forall_insert, Forall_cons, IH. reflexivity.
Qed.

Lemma insert_sorted (x : interval) (l : list interval) :
  wf x -> Forall wf l ->
  StronglySorted byStart l -> StronglySorted byStart (insert x l).
Proof.
  intros Hx Hl Hs. induction Hs as [|y l Hs IH Hy]; simpl.
  - repeat constructor.
  - apply Forall_cons in Hl as [Hwy Hl].
    destruct (Num.ltb (lo y) (lo x)) eqn:E.
    + constructor; [apply IH, Hl|].
      apply Forall_insert. split; [apply ltb_le, E | exact Hy].
    + constructor; [constructor; assumption|].
      constructor; [exact E|].
      eapply Forall_impl; [exact Hy|]. intros z Hz.
      apply (le_trans _ (lo y)); [apply Hwy | exact E | exact Hz].
Qed.

Lemma sortByStart_sorted (rs : list interval) :
  Forall wf rs -> StronglySorted byStart (sortByStart rs).
Proof.
  induction rs as [|r rs IH]; simpl; intros H; [constructor|].
  apply Forall_cons in H as [Hr Hrs].
  apply insert_sorted; [exact Hr | apply Forall_sortByStart, Hrs | apply IH, Hrs].
Qed.




End SpecPlanner.

(** *** The code against the specification's planner *)

Lemma lessThan_ok (a b : string) (x y : number) :
  parseStr a = Ok x -> parseStr b = Ok y -> lessThan a b = Ok (Num.ltb x y).
Proof. unfold lessThan. intros -> ->. reflexivity. Qed.

Lemma lessThan_inv (a b : string) (r : bool) :
  lessThan a b = Ok r ->
  exists x y, parseStr a = Ok x /\ parseStr b = Ok y /\ r = Num.ltb x y.
Proof.
  unfold lessThan. destruct (parseStr a) as [x|]; [|discriminate].
  destruct (parseStr b) as [y|]; [|discriminate].
  intros [= <-]. eauto.
Qed.

Lemma key_segmentIs (s : segment) (r : Spec.interval) :
  segmentIs s r -> key s = Spec.lo r /\ Spec.wf r.
Proof.
  intros [Hs He]. unfold key, startSeconds. rewrite Hs.
  split; [reflexivity|]. split; eapply parseStr_defined; eassumption.
Qed.

Lemma insertSorted_refines (x : segment) (r : Spec.interval)
    (l : list segment) (rl : list Spec.interval) :
  segmentIs x r -> Forall2 segmentIs l rl ->
  Forall2 segmentIs (insertSorted x l) (Spec.insert r rl).
Proof.
  intros Hx Hl. induction Hl as [|y ry l rl Hy Hl IH]; simpl.
  - constructor; [exact Hx | constructor].
  - destruct (key_segmentIs _ _ Hx) as [Kx [Dx _]].
    destruct (key_segmentIs _ _ Hy) as [Ky [Dy _]].
    unfold comparator. rewrite Kx, Ky, sub_negative by assumption.
    destruct (Num.ltb (Spec.lo ry) (Spec.lo r)).
    + constructor; [exact Hy | exact IH].
    + constructor; [exact Hx|]. constructor; [exact Hy | exact Hl].
Qed.

Lemma stableSort_refines (l : list segment) (rl : list Spec.interval) :
  Forall2 segmentIs l rl ->
  Forall2 segmentIs (stableSort l) (Spec.sortByStart rl).
Proof.
  induction 1 as [|x r l rl Hx Hl IH]; simpl; [constructor|].
  apply insertSorted_refines; assumption.
Qed.

Lemma firstError_none (l : list segment) (rl : list Spec.interval) :
  Forall2 segmentIs l rl -> firstError startSeconds l = None.
Proof.
  induction 1 as [|x r l rl [Hx _] Hl IH]; simpl; [reflexivity|].
  unfold startSeconds at 1. rewrite Hx. exact IH.
Qed.

Lemma sortSegments_refines (l : list segment) (rl : list Spec.interval) :
  Forall2 segmentIs l rl ->
  exists sorted,
    sortSegments l = Ok sorted
    /\ Forall2 segmentIs sorted (Spec.sortByStart rl).
Proof.
  intros H. unfold sortSegments.
  destruct (length l <? 2)%nat eqn:E.
  - exists l. split; [reflexivity|].
    apply Nat.ltb_lt in E.
    destruct H as [|x r l rl Hx [|y ry l' rl' Hy Hl]]; simpl in E; try lia.
    + constructor.
    + constructor; [exact Hx | constructor].
  - rewrite (firstError_none _ _ H). eexists. split; [reflexivity|].
    apply stableSort_refines, H.
Qed.

Lemma walk_refines (totalDuration : string) (T : number)
    (segs : list segment) (rs : list Spec.interval) :
  parseStr totalDuration = Ok T ->
  Forall2 segmentIs segs rs ->
  forall (prevEnd : string) (cursor : number) (acc : list part),
    parseStr prevEnd = Ok cursor ->
    exists prevEnd' ps b,
      walk segs prevEnd acc = Ok (prevEnd', acc ++ ps)
      /\ lessThan prevEnd' totalDuration = Ok b
      /\ Forall2 partIs
           (ps ++ if b : bool
                  then [{| start := prevEnd'; end_ := totalDuration |}]
                  else [])
           (Spec.walkFrom cursor T rs).
Proof.
  intros HT H. induction H as [|s r segs rs [Hs He] H IH];
    intros prevEnd cursor acc Hc.
  - exists prevEnd, [], (Num.ltb cursor T). simpl.
    rewrite app_nil_r, (lessThan_ok _ _ _ _ Hc HT).
    split; [reflexivity|]. split; [reflexivity|].
    destruct (Num.ltb cursor T); [|constructor].
    constructor; [split; assumption | constructor].
  - cbn [walk]. rewrite (lessThan_ok _ _ _ _ Hc Hs). simpl.
    set (head := if Num.ltb cursor (Spec.lo r)
                 then [{| start := prevEnd; end_ := startTime s |}] else []).
    destruct (IH (endTime s) (Spec.hi r) (acc ++ head) He)
      as (prevEnd' & ps & b & Hw & Hb & Hps).
    exists prevEnd', (head ++ ps), b.
    split; [|split; [exact Hb|]].
    + rewrite app_assoc, <- Hw. subst head.
      destruct (Num.ltb cursor (Spec.lo r)); [reflexivity|].
      rewrite app_nil_r. reflexivity.
    + rewrite <- app_assoc. apply Forall2_app; [|exact Hps].
      subst head. destruct (Num.ltb cursor (Spec.lo r)); [|constructor].
      constructor; [split; assumption | constructor].
Qed.

Lemma start_of_video : parseStr "00:00:00" = Ok (Fin 0).
Proof. reflexivity. Qed.

Lemma partsToKeep_refines (totalDuration : string) (T : number)
    (sorted : list segment) (rs : list Spec.interval) :
  parseStr totalDuration = Ok T ->
  Forall2 segmentIs sorted rs ->
  exists parts,
    partsToKeep totalDuration sorted = Ok parts
    /\ Forall2 partIs parts (Spec.walkFrom (Fin 0) T rs).
Proof.
  intros HT H.
  destruct (walk_refines _ _ _ _ HT H "00:00:00" (Fin 0) [] start_of_video)
    as (prevEnd' & ps & b & Hw & Hb & Hps).
  unfold partsToKeep. rewrite Hw. simpl. rewrite Hb. simpl.
  eexists. split; [reflexivity|].
  destruct b; [exact Hps|]. rewrite app_nil_r in Hps. exact Hps.
Qed.






(** *** The invariant of the retain set *)

Lemma Forall_Forall2_transfer {A B} (R : A -> B -> Prop)
    (P : A -> Prop) (Q : B -> Prop) (l : list A) (l' : list B) :
  (forall x x', R x x' -> Q x' -> P x) ->
  Forall2 R l l' -> Forall Q l' -> Forall P l.
Proof.
  intros HPQ H. induction H as [|x x' l l' Hx H IH]; intros HQ; [constructor|].
  apply Forall_cons in HQ as [Hq HQ]. constructor; eauto.
Qed.

Lemma StronglySorted_transfer {A B} (R : A -> B -> Prop)
    (P : A -> A -> Prop) (Q : B -> B -> Prop) (l : list A) (l' : list B) :
  (forall x y x' y', R x x' -> R y y' -> Q x' y' -> P x y) ->
  Forall2 R l l' -> StronglySorted Q l' -> StronglySorted P l.
Proof.
  intros HPQ H. induction H as [|x x' l l' Hx H IH]; intros HQ; [constructor|].
  apply StronglySorted_inv in HQ as [HQ Hx'].
  constructor; [apply IH, HQ|].
  eapply Forall_Forall2_transfer; [|exact H|exact Hx']. eauto.
Qed.







(** ** TempArtifactPlanner and SegmentPipeline *)

Lemma parseStr_error (s : string) (e : error) :
  parseStr s = Err e -> timeError e.
Proof.
  rewrite parseStr_unfold. cbv zeta.
  repeat (case_match; try discriminate); intros [= <-]; exact I.
Qed.

Lemma lessThan_error (a b : string) (e : error) :
  lessThan a b = Err e -> timeError e.
Proof.
  unfold lessThan.
  destruct (parseStr a) as [x|e1] eqn:Ea; simpl.
  - destruct (parseStr b) as [y|e2] eqn:Eb; simpl; [discriminate|].
    intros [= <-]. eapply parseStr_error, Eb.
  - intros [= <-]. eapply parseStr_error, Ea.
Qed.

Lemma walk_error (segs : list segment) (prevEnd : string) (acc : list part)
    (e : error) :
  walk segs prevEnd acc = Err e -> timeError e.
Proof.
  revert prevEnd acc. induction segs as [|s segs IH]; intros prevEnd acc;
    simpl; [discriminate|].
  destruct (lessThan prevEnd (startTime s)) as [b|e1] eqn:E; simpl.
  - apply IH.
  - intros [= <-]. eapply lessThan_error, E.
Qed.

Lemma partsToKeep_error (totalDuration : string) (sorted : list segment)
    (e : error) :
  partsToKeep totalDuration sorted = Err e -> timeError e.
Proof.
  unfold partsToKeep.
  destruct (walk sorted "00:00:00" []) as [[prevEnd ps]|e1] eqn:E; simpl.
  - destruct (lessThan prevEnd totalDuration) as [b|e2] eqn:E2; simpl;
      [discriminate|].
    intros [= <-]. eapply lessThan_error, E2.
  - intros [= <-]. eapply walk_error, E.
Qed.

Lemma firstError_timeError (l : list segment) (e : error) :
  firstError startSeconds l = Some e -> timeError e.
Proof.
  induction l as [|s l IH]; simpl; [discriminate|].
  destruct (startSeconds s) as [x|e1] eqn:E; [exact IH|].
  intros [= <-]. eapply parseStr_error, E.
Qed.

Lemma sortSegments_error (segments : list segment) (e : error) :
  sortSegments segments = Err e -> timeError e.
Proof.
  unfold sortSegments. destruct (length segments <? 2)%nat; [discriminate|].
  destruct (firstError startSeconds segments) as [e1|] eqn:E; [|discriminate].
  intros [= <-]. eapply firstError_timeError, E.
Qed.

Lemma timeError_planning (e : error) : timeError e -> planningError e.
Proof. destruct e; simpl; tauto. Qed.

Lemma cleanup_keeps_absent (l : list string) (w : world) (p : string) :
  files w !! p = None ->
  files (foldl (fun w tempFile =>
                  if existsSync tempFile w then unlinkSync tempFile w else w)
               w l) !! p = None.
Proof.
  revert w. induction l as [|x l IH]; intros w H; simpl; [exact H|].
  apply IH. destruct (existsSync x w); [|exact H].
  simpl. rewrite lookup_delete. case_decide; [reflexivity | exact H].
Qed.

Lemma cleanup_removes (l : list string) (w : world) (p : string) :
  p ∈ l ->
  files (foldl (fun w tempFile =>
                  if existsSync tempFile w then unlinkSync tempFile w else w)
               w l) !! p = None.
Proof.
  revert w. induction l as [|x l IH]; intros w H; [inversion H|].
  apply elem_of_cons in H as [->|H]; simpl; [|apply IH, H].
  apply cleanup_keeps_absent.
  unfold existsSync. case_bool_decide as E.
  - simpl. apply lookup_delete_eq.
  - destruct (files w !! x) eqn:Ex; [|reflexivity].
    exfalso. apply E. eauto.
Qed.

Lemma cleanup_subset (l : list string) (w : world) :
  dom (files (foldl (fun w tempFile =>
                       if existsSync tempFile w then unlinkSync tempFile w
                       else w) w l)) ⊆ dom (files w)
  /\ log (foldl (fun w tempFile =>
                   if existsSync tempFile w then unlinkSync tempFile w
                   else w) w l) = log w.
Proof.
  revert w. induction l as [|x l IH]; intros w; simpl; [split; done|].
  destruct (IH (if existsSync x w then unlinkSync x w else w)) as [H1 H2].
  destruct (existsSync x w); simpl in *.
  - split; [|exact H2]. rewrite dom_delete in H1.
    intros p Hp. apply H1 in Hp. apply elem_of_difference in Hp as [Hp _].
    exact Hp.
  - split; assumption.
Qed.

Section Pipeline.

Variable probe : string -> world -> outcome.
Variable jsonDuration : string -> option (option string).
Variable encoder : string -> world -> outcome * gmap string string.

Lemma answer_error (o : outcome) (e : error) :
  answer o = Err e -> exists m, e = Collaborator m.
Proof. destruct o; simpl; [discriminate|]. intros [= <-]. eauto. Qed.

Lemma durationOf_error (info : string) (e : error) :
  durationOf jsonDuration info = Err e -> planningError e.
Proof.
  unfold durationOf. destruct (jsonDuration info) as [[d|]|].
  - case_decide; [|discriminate]. intros [= <-]. exact I.
  - intros [= <-]. exact I.
  - intros [= <-]. exact I.
Qed.

Lemma totalDurationOf_error (duration : string) (e : error) :
  totalDurationOf duration = Err e -> timeError e.
Proof.
  unfold totalDurationOf. destruct (parseStr duration) as [x|e1] eqn:E; simpl.
  - discriminate.
  - intros [= <-]. eapply parseStr_error, E.
Qed.

(** What the planning phase does to the state: it records no temporary
    file, touches no file, and calls the probe at most once. *)
Lemma planning_effect (inputPath : string) (segments : list segment)
    (s : local) :
  let '(r, s') := planning probe jsonDuration inputPath segments s in
  tempFiles s' = tempFiles s
  /\ files (outside s') = files (outside s)
  /\ match r with
     | Ok _ => log (outside s') = log (outside s) ++ [ProbeCall inputPath]
     | Err e =>
         planningError e
         /\ (log (outside s') = log (outside s)
             \/ log (outside s') = log (outside s) ++ [ProbeCall inputPath])
     end.
Proof.
  unfold planning, bind, liftR, inWorld, getVideoInfo.
  destruct (sortSegments segments) as [sorted|e] eqn:Es.
  2:{ repeat split; try reflexivity; [|left; reflexivity].
      eapply timeError_planning, sortSegments_error, Es. }
  destruct (answer (probe inputPath (outside s))) as [info|e] eqn:Ei; simpl.
  2:{ repeat split; try reflexivity; [|right; reflexivity].
      apply answer_error in Ei as [m ->]. exact I. }
  destruct (durationOf jsonDuration info) as [duration|e] eqn:Ed; simpl.
  2:{ repeat split; try reflexivity; [|right; reflexivity].
      eapply durationOf_error, Ed. }
  destruct (totalDurationOf duration) as [totalDuration|e] eqn:Et; simpl.
  2:{ repeat split; try reflexivity; [|right; reflexivity].
      eapply timeError_planning, totalDurationOf_error, Et. }
  destruct (partsToKeep totalDuration sorted) as [parts|e] eqn:Ep; simpl.
  - repeat split; reflexivity.
  - repeat split; try reflexivity; [|right; reflexivity].
    eapply timeError_planning, partsToKeep_error, Ep.
Qed.

(** The extraction loop: it records the paths [temp_part_i] of the parts
    it attempts, in order; it returns them all, or stops at the first
    extraction that the encoder fails. *)
Lemma extractParts_spec (inputPath : string) (parts : list part) :
  forall (i : nat) (partPaths : list string) (s : local),
    let '(r, s') := extractParts encoder inputPath parts i partPaths s in
    exists k,
      (k <= length parts)%nat
      /\ tempFiles s' = tempFiles s ++ map partPath (seq i k)
      /\ match r with
         | Ok paths =>
             k = length parts /\ paths = partPaths ++ map partPath (seq i k)
         | Err e => (0 < k)%nat /\ exists m, e = Collaborator m
         end.
Proof.
  induction parts as [|p parts IH]; intros i partPaths s.
  - simpl. exists 0%nat. simpl. rewrite !app_nil_r. auto.
  - cbn [extractParts]. unfold bind at 1. unfold pushTemp at 1.
    unfold bind at 1. unfold inWorld at 1. unfold runFFmpegCommand at 1.
    cbn [outside tempFiles].
    destruct (encoder (extractCommand inputPath p (partPath i)) (outside s))
      as [o fs].
    destruct (answer o) as [out|e] eqn:Eo.
    + specialize (IH (S i) (partPaths ++ [partPath i])
                    {| outside := {| files := fs;
                                     log := log (outside s) ++
                                       [EncoderCall (extractCommand inputPath p
                                                       (partPath i))] |};
                       tempFiles := tempFiles s ++ [partPath i] |}).
      destruct (extractParts encoder inputPath parts (S i) _ _) as [r s'].
      destruct IH as (k & Hk & Ht & Hr). exists (S k).
      split; [simpl; lia|]. split.
      * rewrite Ht. cbn [tempFiles seq map]. rewrite <- app_assoc. reflexivity.
      * destruct r as [paths|e].
        -- destruct Hr as [-> ->]. split; [reflexivity|].
           cbn [seq map]. rewrite <- app_assoc. reflexivity.
        -- destruct Hr as [_ Hm]. split; [lia | exact Hm].
    + exists 1%nat. split; [simpl; lia|]. split; [reflexivity|].
      split; [lia|]. eapply answer_error, Eo.
Qed.

Lemma removeSegmentsRun_unfold (inputPath : string) (segments : list segment)
    (outputPath : string) (w : world) :
  removeSegmentsRun probe jsonDuration encoder inputPath segments outputPath w =
  let '(r, s) :=
    removeSegmentsBody probe jsonDuration encoder inputPath segments
      outputPath (entry w) in
  (r, cleanup s).
Proof. reflexivity. Qed.

(** What the body records, whatever way it ends: the part paths of the
    extractions it attempted, then the manifest path once every extraction
    succeeded. *)
Lemma removeSegmentsBody_tempFiles (inputPath : string)
    (segments : list segment) (outputPath : string) (w : world) :
  let '(r, s) :=
    removeSegmentsBody probe jsonDuration encoder inputPath segments
      outputPath (entry w) in
  exists k,
    tempFiles s = map partPath (seq 0 k)
    \/ ((0 < k)%nat /\ tempFiles s = map partPath (seq 0 k) ++ [concatListPath]).
Proof.
  unfold removeSegmentsBody. unfold bind at 1.
  pose proof (planning_effect inputPath segments (entry w)) as Hp.
  destruct (planning probe jsonDuration inputPath segments (entry w))
    as [[parts|e] s1].
  2:{ destruct Hp as (Ht & _). exists 0%nat. left. rewrite Ht. reflexivity. }
  destruct Hp as (Ht & _). unfold bind at 1.
  pose proof (extractParts_spec inputPath parts 0%nat [] s1) as He.
  destruct (extractParts encoder inputPath parts 0 [] s1) as [[paths|e] s2].
  2:{ destruct He as (k & _ & Hk & _). exists k. left.
      rewrite Hk, Ht. reflexivity. }
  destruct He as (k & _ & Hk & -> & ->).
  rewrite app_nil_l, length_map, length_seq.
  destruct (0 <? length parts)%nat eqn:E.
  - apply Nat.ltb_lt in E.
    unfold bind, pushTemp, onWorld, inWorld, runFFmpegCommand, ret.
    cbn [outside tempFiles].
    destruct (encoder _ _) as [o fs].
    destruct (answer o); exists (length parts); right; (split; [exact E|]);
      cbn [tempFiles]; rewrite Hk, Ht; reflexivity.
  - unfold throw. exists (length parts). left. rewrite Hk, Ht. reflexivity.
Qed.

Lemma extractParts_keeps (inputPath : string) (parts : list part)
    (i : nat) (partPaths : list string) (s : local) (x : string) :
  x ∈ tempFiles s ->
  x ∈ tempFiles (snd (extractParts encoder inputPath parts i partPaths s)).
Proof.
  intros Hx.
  pose proof (extractParts_spec inputPath parts i partPaths s) as Hs.
  destruct (extractParts encoder inputPath parts i partPaths s) as [r s'].
  destruct Hs as (k & _ & Ht & _). cbn [snd]. rewrite Ht.
  apply elem_of_app. left. exact Hx.
Qed.

Lemma extractParts_files (inputPath outputPath : string) (parts : list part) :
  confined encoder inputPath outputPath ->
  forall (i : nat) (partPaths : list string) (s : local),
    dom (files (outside
           (snd (extractParts encoder inputPath parts i partPaths s))))
    ⊆ dom (files (outside s))
      ∪ list_to_set
          (tempFiles (snd (extractParts encoder inputPath parts i partPaths s))).
Proof.
  intros [Hx _]. induction parts as [|p parts IH]; intros i partPaths s.
  - simpl. apply union_subseteq_l.
  - cbn [extractParts]. unfold bind at 1 3. unfold pushTemp at 1 2.
    unfold bind at 1 2. unfold inWorld at 1 2.
    unfold runFFmpegCommand at 1 2. cbn [outside tempFiles].
    specialize (Hx p (partPath i) (outside s)).
    destruct (encoder (extractCommand inputPath p (partPath i)) (outside s))
      as [o fs].
    cbn [snd] in Hx.
    destruct (answer o) as [out|e].
    + match goal with
      | |- context [extractParts encoder inputPath parts (S i) ?pp ?st] =>
          specialize (IH (S i) pp st);
          pose proof (extractParts_keeps inputPath parts (S i) pp st
                        (partPath i)) as Hin;
          destruct (extractParts encoder inputPath parts (S i) pp st)
            as [r s']
      end.
      cbn [snd outside files tempFiles] in *.
      assert (partPath i ∈ tempFiles s') as Hi
          by (apply Hin, elem_of_app; right; apply list_elem_of_singleton;
              reflexivity).
      intros x Hxs. apply IH in Hxs.
      apply elem_of_union in Hxs as [Hxs|Hxs];
        [|apply elem_of_union; right; exact Hxs].
      apply Hx in Hxs. apply elem_of_union in Hxs as [Hxs|Hxs].
      * apply elem_of_union. left. exact Hxs.
      * apply elem_of_singleton in Hxs as ->.
        apply elem_of_union. right. apply elem_of_list_to_set. exact Hi.
    + cbn [snd outside files tempFiles].
      intros x Hxs. apply Hx in Hxs. apply elem_of_union in Hxs as [Hxs|Hxs].
      * apply elem_of_union. left. exact Hxs.
      * apply elem_of_singleton in Hxs as ->.
        apply elem_of_union. right. apply elem_of_list_to_set.
        apply elem_of_app. right. apply list_elem_of_singleton. reflexivity.
Qed.

Lemma removeSegmentsBody_files (inputPath : string)
    (segments : list segment) (outputPath : string) (w : world)
    (r : result unit) (s : local) :
  confined encoder inputPath outputPath ->
  removeSegmentsBody probe jsonDuration encoder inputPath segments outputPath
    (entry w) = (r, s) ->
  dom (files (outside s))
  ⊆ dom (files w) ∪ {[outputPath]} ∪ list_to_set (tempFiles s).
Proof.
  intros Hc. unfold removeSegmentsBody. unfold bind at 1.
  pose proof (planning_effect inputPath segments (entry w)) as Hp.
  destruct (planning probe jsonDuration inputPath segments (entry w))
    as [[parts|e] s1]; destruct Hp as (_ & Hf & _); cbn [entry outside] in Hf.
  2:{ intros [= <- <-]. rewrite Hf. intros x Hx.
      do 2 (apply elem_of_union; left). exact Hx. }
  unfold bind at 1.
  pose proof (extractParts_files inputPath outputPath parts Hc 0%nat [] s1)
    as He.
  destruct (extractParts encoder inputPath parts 0 [] s1) as [[paths|e] s2];
    cbn [snd] in He; rewrite Hf in He.
  2:{ intros [= <- <-]. intros x Hx. apply He in Hx.
      apply elem_of_union in Hx as [Hx|Hx]; apply elem_of_union;
        [left; apply elem_of_union; left|right]; exact Hx. }
  destruct (0 <? length paths)%nat.
  - unfold bind, pushTemp, onWorld, inWorld, runFFmpegCommand, ret.
    cbn [outside tempFiles].
    destruct Hc as [_ Hcat].
    specialize (Hcat (writeFileSync concatListPath (concatList paths)
                        (outside s2))).
    destruct (encoder (concatCommand outputPath) _) as [o fs].
    cbn [snd] in Hcat.
    assert (dom fs ⊆ dom (files w) ∪ {[outputPath]}
                      ∪ list_to_set (tempFiles s2 ++ [concatListPath])) as H.
    { intros x Hx. apply Hcat in Hx.
      rewrite list_to_set_app, !elem_of_union in *.
      destruct Hx as [Hx|Hx]; [|tauto].
      simpl in Hx. rewrite dom_insert in Hx.
      apply elem_of_union in Hx as [Hx|Hx].
      - right. right. apply elem_of_list_to_set.
        apply elem_of_singleton in Hx as ->.
        apply list_elem_of_singleton. reflexivity.
      - apply He in Hx. apply elem_of_union in Hx. tauto. }
    destruct (answer o); intros [= <- <-]; exact H.
  - unfold throw. intros [= <- <-]. intros x Hx. apply He in Hx.
    apply elem_of_union in Hx as [Hx|Hx]; apply elem_of_union;
      [left; apply elem_of_union; left|right]; exact Hx.
Qed.

(** C3. When [removeSegments] ends, by a normal return or by any thrown
    error, none of the temporary files it recorded exists; a file that
    was already missing is passed over.  What it recorded are the part
    paths of the extractions it attempted and, once all succeeded, the
    manifest path.  So, when the encoder leaves no file but the output
    its command names, the only file the call can add is the output. *)
Theorem removeSegments_cleans_up (inputPath : string)
    (segments : list segment) (outputPath : string) (w : world) :
  let '(r, s) :=
    removeSegmentsRun probe jsonDuration encoder inputPath segments
      outputPath w in
  (forall tempFile, tempFile ∈ tempFiles s ->
     existsSync tempFile (outside s) = false)
  /\ (exists k,
        tempFiles s = map partPath (seq 0 k)
        \/ ((0 < k)%nat
            /\ tempFiles s = map partPath (seq 0 k) ++ [concatListPath]))
  /\ (confined encoder inputPath outputPath ->
      dom (files (outside s)) ⊆ dom (files w) ∪ {[outputPath]}).
Proof.
  rewrite removeSegmentsRun_unfold.
  pose proof (removeSegmentsBody_tempFiles inputPath segments outputPath w)
    as Ht.
  pose proof (removeSegmentsBody_files inputPath segments outputPath w) as Hf.
  destruct (removeSegmentsBody probe jsonDuration encoder inputPath segments
              outputPath (entry w)) as [r s].
  specialize (fun Hc => Hf r s Hc eq_refl).
  assert (forall tempFile, tempFile ∈ tempFiles (cleanup s) ->
            files (outside (cleanup s)) !! tempFile = None) as Hgone.
  { intros tempFile H. apply cleanup_removes. exact H. }
  split; [|split; [exact Ht|]].
  - intros tempFile H. unfold existsSync. rewrite (Hgone _ H).
    apply bool_decide_eq_false. intros [x Hx]. discriminate.
  - intros Hc x Hx. specialize (Hf Hc).
    destruct (decide (x ∈ tempFiles s)) as [Hin|Hout].
    + apply Hgone in Hin. apply elem_of_dom in Hx as [c Hx]. congruence.
    + apply (proj1 (cleanup_subset (tempFiles s) (outside s))) in Hx.
      apply Hf in Hx. apply elem_of_union in Hx as [Hx|Hx]; [exact Hx|].
      apply elem_of_list_to_set in Hx. contradiction.
Qed.



Lemma append_cancel_r (a b c : string) : a +:+ c = b +:+ c -> a = b.
Proof.
  revert b. induction a as [|x a IH]; intros [|y b] H.
  - reflexivity.
  - exfalso. apply (f_equal String.length) in H.
    rewrite append_nil, append_cons in H. cbn [String.length] in H.
    rewrite app_length_string in H. lia.
  - exfalso. apply (f_equal String.length) in H.
    rewrite append_nil, append_cons in H. cbn [String.length] in H.
    rewrite app_length_string in H. lia.
  - rewrite !append_cons in H. injection H as -> H. f_equal. apply IH, H.
Qed.

Lemma partPath_inj (i j : nat) : partPath i = partPath j -> i = j.
Proof.
  unfold partPath. intros H.
  apply (inj (String.app "temp_part_")) in H.
  apply append_cancel_r in H. apply (inj pretty) in H. exact H.
Qed.

Lemma partPath_not_manifest (i : nat) : partPath i <> concatListPath.
Proof.
  unfold partPath, concatListPath. intros H.
  rewrite !append_cons in H. discriminate H.
Qed.

Lemma partPaths_NoDup (k : nat) : NoDup (map partPath (seq 0 k)).
Proof.
  change (NoDup (partPath <$> seq 0 k)).
  assert (Inj (=) (=) partPath) as Hinj by exact partPath_inj.
  apply (NoDup_fmap_2 partPath), NoDup_seq.
Qed.

(** C5, as the code has it.  The scratch paths are fixed names: part [i]
    goes to [temp_part_i.mp4] and the manifest to [temp_concat_list.txt],
    whatever the call.  Within one call the recorded paths are pairwise
    distinct: distinct part indices give distinct paths and none of them
    is the manifest path. *)
Theorem scratch_paths_are_fixed_names :
  (forall i j, partPath i = partPath j -> i = j)
  /\ (forall i, partPath i <> concatListPath)
  /\ partPath 0 = "temp_part_0.mp4"
  /\ concatListPath = "temp_concat_list.txt"
  /\ (forall (inputPath : string) (segments : list segment)
             (outputPath : string) (w : world),
        let s := snd (removeSegmentsRun probe jsonDuration encoder inputPath
                        segments outputPath w) in
        NoDup (tempFiles s)
        /\ exists k,
            tempFiles s = map partPath (seq 0 k)
            \/ tempFiles s = map partPath (seq 0 k) ++ [concatListPath]).
Proof.
  split; [exact partPath_inj|]. split; [exact partPath_not_manifest|].
  split; [reflexivity|]. split; [reflexivity|].
  intros inputPath segments outputPath w. cbv zeta.
  rewrite removeSegmentsRun_unfold.
  pose proof (removeSegmentsBody_tempFiles inputPath segments outputPath w)
    as Ht.
  destruct (removeSegmentsBody probe jsonDuration encoder inputPath segments
              outputPath (entry w)) as [r s].
  cbn [snd cleanup tempFiles].
  destruct Ht as [k [Ht|[_ Ht]]]; rewrite Ht.
  - split; [apply partPaths_NoDup | exists k; left; reflexivity].
  - split; [|exists k; right; reflexivity].
    apply NoDup_app. split; [apply partPaths_NoDup|].
    split; [|apply NoDup_singleton].
    intros x Hx Hc. apply list_elem_of_singleton in Hc as ->.
    apply list_elem_of_In, in_map_iff in Hx as (i & Hi & _).
    exact (partPath_not_manifest i Hi).
Qed.

End Pipeline.

(** *** Closed runs *)

Lemma failingEncoder_confined (inputPath outputPath : string) :
  confined failingEncoder inputPath outputPath.
Proof. split; intros; simpl; apply union_subseteq_l. Qed.

(** A successful run: both parts and the manifest are written, used and
    removed; the output stays. *)
Example removeSegments_sample_run :
  let '(r, s) :=
    removeSegmentsRun sampleProbe (sampleJson "100") sampleEncoder "in.mp4"
      [{| startTime := "10"; endTime := "20" |}] "out.mp4" sampleWorld in
  r = Ok tt
  /\ tempFiles s = ["temp_part_0.mp4"; "temp_part_1.mp4"; "temp_concat_list.txt"]
  /\ files (outside s) =
       {[ "in.mp4" := "video"; "out.mp4" := "edited video" ]}.
Proof. vm_compute. repeat split; reflexivity. Qed.

Lemma removeSegments_cleans_up_witness :
  confined failingEncoder "in.mp4" "out.mp4"
  /\ dom (files (outside (snd
            (removeSegmentsRun sampleProbe (sampleJson "100") failingEncoder
               "in.mp4" [{| startTime := "10"; endTime := "20" |}] "out.mp4"
               sampleWorld))))
     ⊆ dom (files sampleWorld) ∪ {["out.mp4"]}.
Proof.
  split; [apply failingEncoder_confined|].
  pose proof (removeSegments_cleans_up sampleProbe (sampleJson "100")
                failingEncoder "in.mp4"
                [{| startTime := "10"; endTime := "20" |}] "out.mp4"
                sampleWorld) as H.
  destruct (removeSegmentsRun _ _ _ _ _ _ _) as [r s].
  destruct H as (_ & _ & H). apply H, failingEncoder_confined.
Defined.


(** C5 as stated fails: the names carry no identifier of the call.  Two
    calls on different inputs and outputs record the same three paths. *)
Lemma scratch_paths_shared_between_calls :
  let a := snd (removeSegmentsRun sampleProbe (sampleJson "100") sampleEncoder
                  "in.mp4" [{| startTime := "10"; endTime := "20" |}]
                  "out.mp4" sampleWorld) in
  let b := snd (removeSegmentsRun sampleProbe (sampleJson "30") failingEncoder
                  "other.mp4" [{| startTime := "5"; endTime := "10" |}]
                  "other_out.mp4" sampleWorld) in
  tempFiles a = ["temp_part_0.mp4"; "temp_part_1.mp4"; "temp_concat_list.txt"]
  /\ tempFiles b = ["temp_part_0.mp4"]
  /\ "temp_part_0.mp4" ∈ tempFiles a
  /\ "temp_part_0.mp4" ∈ tempFiles b.
Proof.
  cbv zeta.
  assert (tempFiles (snd (removeSegmentsRun sampleProbe (sampleJson "100")
                            sampleEncoder "in.mp4"
                            [{| startTime := "10"; endTime := "20" |}]
                            "out.mp4" sampleWorld))
          = ["temp_part_0.mp4"; "temp_part_1.mp4"; "temp_concat_list.txt"])
    as Ha by (vm_compute; reflexivity).
  assert (tempFiles (snd (removeSegmentsRun sampleProbe (sampleJson "30")
                            failingEncoder "other.mp4"
                            [{| startTime := "5"; endTime := "10" |}]
                            "other_out.mp4" sampleWorld))
          = ["temp_part_0.mp4"])
    as Hb by (vm_compute; reflexivity).
  rewrite Ha, Hb. repeat split; apply list_elem_of_In; simpl; auto.
Qed.

(** ** Keep one event *)

Section KeepOneEvent.

Variable probe : string -> world -> outcome.
Variable jsonDuration : string -> option (option string).
Variable encoder : string -> world -> outcome * gmap string string.
Variable analysis : string -> string -> world -> outcome.
Variable mkdir : string -> world -> outcome.

(** C10. Once the paths are accepted and the analysis has answered,
    [removeEventSegments] goes on only with exactly one extracted pair.
    With four matches or more (two pairs or more) it fails with "Expected
    exactly one segment to keep, but found n", rethrown as "Failed to
    process video: ..."; with fewer than two matches it fails with the
    extractor's error.  In both cases the probe and the encoder were not
    called and no file changed.  With two or three matches it goes on
    with the pair of the first two. *)
Theorem removeEventSegments_expects_one_segment
    (inputPath eventDescription outputPath : string) (w : world)
    (text created : string) :
  inputPath <> EmptyString ->
  existsSync inputPath w = true ->
  outputPath <> EmptyString ->
  mkdir outputPath w = Done created ->
  analysis inputPath (keepPrompt eventDescription)
    (logged (MkdirCall outputPath) w) = Done text ->
  let run :=
    removeEventSegments probe jsonDuration encoder analysis mkdir
      inputPath eventDescription outputPath w in
  let analysed :=
    {| files := files w;
       log := log w ++ [MkdirCall outputPath;
                        AnalysisCall inputPath (keepPrompt eventDescription)]
    |} in
  let matches := Regex.matchAll text in
  ((4 <= length matches)%nat ->
     run = (Err (FailedToProcess (ExpectedOneSegment (length matches / 2))),
            analysed))
  /\ ((length matches < 2)%nat ->
      run = (Err (FailedToProcess NoValidTimestamps), analysed))
  /\ (forall a b,
        (2 <= length matches < 4)%nat ->
        matches !! 0%nat = Some a -> matches !! 1%nat = Some b ->
        run =
        tryRethrow
          (do keepSegment probe jsonDuration encoder inputPath inputPath
                outputPath {| startTime := a; endTime := b |} in
           ret (keptMessage inputPath eventDescription outputPath))
          FailedToProcess analysed).
Proof.
  intros Hin Hex Hout Hmk Han. cbv zeta.
  set (analysed :=
         {| files := files w;
            log := log w ++ [MkdirCall outputPath;
                             AnalysisCall inputPath
                               (keepPrompt eventDescription)] |}).
  assert (removeEventSegments probe jsonDuration encoder analysis mkdir
            inputPath eventDescription outputPath w
          = tryRethrow
              (let* segmentsToKeep :=
                 liftR (extractTimestampsFromResponse text) in
               match segmentsToKeep with
               | [segmentToKeep] =>
                   do keepSegment probe jsonDuration encoder inputPath
                        inputPath outputPath segmentToKeep in
                   ret (keptMessage inputPath eventDescription outputPath)
               | _ => throw (ExpectedOneSegment (length segmentsToKeep))
               end)
              FailedToProcess analysed) as Hrun.
  { unfold removeEventSegments.
    unfold bind at 1. unfold validatePath at 1.
    destruct (decide (inputPath = EmptyString)) as [?|_]; [contradiction|].
    rewrite Hex. cbn [andb negb].
    unfold bind at 1. unfold validatePath at 1.
    destruct (decide (outputPath = EmptyString)) as [?|_]; [contradiction|].
    cbn [andb].
    unfold bind at 1. unfold ensureDirectoryExists at 1. rewrite Hmk.
    cbn [answer fmap result_fmap].
    unfold tryRethrow at 1 2. unfold bind at 1.
    unfold analyzeVideoWithGemini at 1. rewrite Han. cbn [answer].
    replace (logged (AnalysisCall inputPath (keepPrompt eventDescription))
               (logged (MkdirCall outputPath) w)) with analysed; [reflexivity|].
    unfold analysed, logged. cbn [files log]. rewrite <- app_assoc.
    reflexivity. }
  rewrite Hrun. clear Hrun.
  unfold tryRethrow, bind at 1, liftR. rewrite extractTimestamps_unfold.
  split; [|split].
  - intros H4.
    destruct (Regex.matchAll text) as [|a [|b [|c [|d l]]]] eqn:Em;
      simpl in H4; try lia.
    replace (length (a :: b :: c :: d :: l) / 2)%nat
      with (length (pairUp (a :: b :: c :: d :: l)))
      by apply pairUp_length.
    reflexivity.
  - intros H2. apply Nat.ltb_lt in H2. rewrite H2. reflexivity.
  - intros a b [H2 H4] Ha Hb.
    destruct (Regex.matchAll text) as [|a' [|b' [|c [|d l]]]] eqn:Em;
      simpl in H2, H4; try lia;
      injection Ha as ->; injection Hb as ->; reflexivity.
Qed.

End KeepOneEvent.

Lemma removeEventSegments_expects_one_segment_witness :
  removeEventSegments sampleProbe (sampleJson "100") sampleEncoder
    (sampleAnalysis "Twice: 00:00:05 to 00:00:09, and 00:01:10 to 00:01:20.")
    sampleMkdir "in.mp4" "the goal" "out.mp4" sampleWorld
  = (Err (FailedToProcess (ExpectedOneSegment 2)),
     {| files := files sampleWorld;
        log := [MkdirCall "out.mp4";
                AnalysisCall "in.mp4" (keepPrompt "the goal")] |}).
Proof.
  refine (proj1 (removeEventSegments_expects_one_segment
                   sampleProbe (sampleJson "100") sampleEncoder
                   (sampleAnalysis
                      "Twice: 00:00:05 to 00:00:09, and 00:01:10 to 00:01:20.")
                   sampleMkdir "in.mp4" "the goal" "out.mp4" sampleWorld
                   "Twice: 00:00:05 to 00:00:09, and 00:01:10 to 00:01:20."
                   "created" _ eq_refl _ eq_refl eq_refl) _).
  - discriminate.
  - discriminate.
  - vm_compute. lia.
Defined.

(** * Further properties of the planner *)

Lemma le_ltb_trans (x y z : number) :
  defined x -> le x y -> Num.ltb y z = true -> Num.ltb x z = true.
Proof.
  unfold le, defined.
  destruct x as [|[]|p], y as [|[]|q], z as [|[]|r]; simpl; try congruence.
  intros _.
  rewrite !negb_true_iff, negb_false_iff, !Qle_bool_false, Qle_bool_iff.
  apply Qle_lt_trans.
Qed.

Section Complement.

Import Spec.

Variable t : number.
Variable total : number.

Lemma outside_cases (r : interval) :
  ~ inside t r -> Num.ltb t (lo r) = true \/ le (hi r) t.
Proof.
  unfold inside, le. intros H.
  destruct (Num.ltb t (lo r)) eqn:E1; [left; reflexivity|].
  right. destruct (Num.ltb t (hi r)) eqn:E2; [|reflexivity].
  exfalso. apply H. split; reflexivity.
Qed.

(** A time from the cursor on that no interval contains is in a part the
    walk emits. *)
Lemma walkFrom_covers (rs : list interval) :
  Num.ltb t total = true ->
  Forall wf rs ->
  Forall (fun r => ~ inside t r) rs ->
  forall cursor,
    defined cursor -> le cursor t ->
    Exists (inside t) (walkFrom cursor total rs).
Proof.
  intros HT Hwf H. revert Hwf.
  induction H as [|r rs Hr Hrs IH]; intros Hwf c Hc Hct.
  - simpl. rewrite (le_ltb_trans _ _ _ Hc Hct HT).
    constructor. split; assumption.
  - apply Forall_cons in Hwf as [[_ Hrh] Hwf].
    cbn [walkFrom]. apply Exists_app.
    destruct (outside_cases r Hr) as [Hlt|Hge].
    + left. rewrite (le_ltb_trans _ _ _ Hc Hct Hlt).
      constructor. split; assumption.
    + right. apply IH; assumption.
Qed.

(** When the intervals are sorted by start and their ends do not decrease,
    a time in a part the walk emits is in no interval. *)
Lemma walkFrom_avoids (rs : list interval) :
  Forall wf rs -> StronglySorted byStart rs -> StronglySorted byEnd rs ->
  forall cursor i,
    i ∈ walkFrom cursor total rs -> inside t i ->
    Forall (fun r => ~ inside t r) rs
    /\ (lo i = cursor \/ Exists (fun r => lo i = hi r) rs).
Proof.
  intros Hwf Hs. revert Hwf.
  induction Hs as [|r rs Hs IH Hr]; intros Hwf He c i Hi Hin.
  - simpl in Hi. destruct (Num.ltb c total); [|inversion Hi].
    apply list_elem_of_singleton in Hi as ->. split; [constructor|].
    left. reflexivity.
  - apply Forall_cons in Hwf as [[Hrl Hrh] Hwf].
    apply StronglySorted_inv in He as [He Hre].
    cbn [walkFrom] in Hi. apply elem_of_app in Hi as [Hi|Hi].
    + destruct (Num.ltb c (lo r)) eqn:E; [|inversion Hi].
      apply list_elem_of_singleton in Hi as ->.
      destruct Hin as [Hl Hh]. cbn [lo hi] in *.
      split; [|left; reflexivity].
      constructor.
      * intros [Hin' _]. unfold le in Hin'. congruence.
      * rewrite Forall_forall in Hr, Hwf |- *. intros r' Hr' [Hin' _].
        pose proof (ltb_le_trans _ _ _ (proj1 (Hwf r' Hr')) Hh (Hr r' Hr'))
          as Hlt.
        unfold le in Hin'. congruence.
    + destruct (IH Hwf He (hi r) i Hi Hin) as [Hout Hlo].
      assert (le (hi r) t) as Hge.
      { destruct Hin as [Hl _]. destruct Hlo as [Hlo|Hlo].
        - rewrite <- Hlo. exact Hl.
        - apply Exists_exists in Hlo as (r' & Hr' & Hlo).
          rewrite Forall_forall in Hre, Hwf.
          apply (le_trans _ (hi r')); [apply (Hwf r' Hr')|apply (Hre r' Hr')|].
          rewrite <- Hlo. exact Hl. }
      split.
      * constructor; [|exact Hout]. intros [_ Hlt]. unfold le in Hge. congruence.
      * right. destruct Hlo as [Hlo|Hlo];
          [apply Exists_cons_hd; exact Hlo | apply Exists_cons_tl; exact Hlo].
Qed.

End Complement.

Lemma parses_intro (s : segment) (x y : number) :
  parseStr (startTime s) = Ok x -> parseStr (endTime s) = Ok y -> parses s.
Proof.
  intros Hx Hy. unfold parses, segmentIs, intervalOf, secondsOr. simpl.
  rewrite Hx, Hy. split; reflexivity.
Qed.

Lemma walk_parses (segs : list segment) :
  forall (prevEnd : string) (acc : list part) (prevEnd' : string)
         (acc' : list part),
    walk segs prevEnd acc = Ok (prevEnd', acc') ->
    (exists x, parseStr prevEnd' = Ok x) ->
    (exists x, parseStr prevEnd = Ok x) /\ Forall parses segs.
Proof.
  induction segs as [|s segs IH]; intros c acc c' acc' Hw Hc'.
  - simpl in Hw. injection Hw as <- <-. split; [exact Hc' | constructor].
  - cbn [walk] in Hw.
    destruct (lessThan c (startTime s)) as [b|e] eqn:El; [|discriminate].
    simpl in Hw. apply lessThan_inv in El as (x & y & Hx & Hy & _).
    destruct (IH _ _ _ _ Hw Hc') as [[z Hz] Hsegs].
    split; [eauto|]. constructor; [|exact Hsegs].
    eapply parses_intro; eassumption.
Qed.

Lemma partsToKeep_parses (totalDuration : string) (sorted : list segment)
    (parts : list part) :
  partsToKeep totalDuration sorted = Ok parts ->
  Forall parses sorted /\ exists T, parseStr totalDuration = Ok T.
Proof.
  unfold partsToKeep.
  destruct (walk sorted "00:00:00" []) as [[prevEnd ps]|] eqn:Ew;
    [|discriminate].
  simpl. destruct (lessThan prevEnd totalDuration) as [b|] eqn:E;
    [|discriminate].
  intros _. apply lessThan_inv in E as (x & y & Hx & Hy & _).
  split; [|eauto]. eapply walk_parses; eauto.
Qed.

Lemma insertSorted_perm (x : segment) (l : list segment) :
  insertSorted x l ≡ₚ x :: l.
Proof.
  induction l as [|y l IH]; simpl; [reflexivity|].
  destruct (Num.ltb (comparator y x) (Fin 0)); [|reflexivity].
  rewrite IH. apply Permutation_swap.
Qed.

Lemma sortSegments_perm (segments sorted : list segment) :
  sortSegments segments = Ok sorted -> sorted ≡ₚ segments.
Proof.
  unfold sortSegments. destruct (length segments <? 2)%nat.
  - intros [= <-]. reflexivity.
  - destruct (firstError startSeconds segments); [discriminate|].
    intros [= <-]. clear. induction segments as [|s l IH]; simpl; [reflexivity|].
    rewrite insertSorted_perm, IH. reflexivity.
Qed.

Lemma parses_intervals (l : list segment) :
  Forall parses l -> Forall2 segmentIs l (map intervalOf l).
Proof.
  induction 1 as [|s l Hs _ IH]; simpl; constructor; assumption.
Qed.

Lemma between_inside (t : number) (s : segment) (r : Spec.interval) :
  segmentIs s r -> (between t (startTime s) (endTime s) <-> inside t r).
Proof.
  intros [Hs He]. unfold between, inside. split.
  - intros (x & y & Hx & Hy & H). rewrite Hs in Hx. rewrite He in Hy.
    injection Hx as <-. injection Hy as <-. exact H.
  - intros H. eauto.
Qed.

Lemma between_inside_part (t : number) (p : part) (r : Spec.interval) :
  partIs p r -> (between t (start p) (end_ p) <-> inside t r).
Proof.
  intros [Hs He]. unfold between, inside. split.
  - intros (x & y & Hx & Hy & H). rewrite Hs in Hx. rewrite He in Hy.
    injection Hx as <-. injection Hy as <-. exact H.
  - intros H. eauto.
Qed.

(** What the planner's run on parsed segments yields, in one place. *)
Lemma planner_intervals (totalDuration : string)
    (segments sorted : list segment) (parts : list part) :
  sortSegments segments = Ok sorted ->
  partsToKeep totalDuration sorted = Ok parts ->
  exists T,
    parseStr totalDuration = Ok T
    /\ Forall parses segments
    /\ Forall Spec.wf (map intervalOf segments)
    /\ Forall2 segmentIs sorted (Spec.sortByStart (map intervalOf segments))
    /\ Forall2 partIs parts (Spec.retain T (map intervalOf segments)).
Proof.
  intros Hsort Hparts.
  destruct (partsToKeep_parses _ _ _ Hparts) as [Hp [T HT]].
  assert (Forall parses segments) as Hsegs.
  { rewrite <- (sortSegments_perm _ _ Hsort). exact Hp. }
  pose proof (parses_intervals _ Hsegs) as H2.
  destruct (sortSegments_refines _ _ H2) as (sorted' & Hs' & Hsorted).
  assert (sorted' = sorted) as -> by congruence.
  destruct (partsToKeep_refines _ _ _ _ HT Hsorted) as (parts' & Hp' & Hparts').
  assert (parts' = parts) as -> by congruence.
  exists T. repeat split; try assumption.
  apply Forall_forall. intros r Hr.
  apply list_elem_of_In, in_map_iff in Hr as (s & <- & Hs).
  apply list_elem_of_In in Hs. rewrite Forall_forall in Hsegs.
  apply (key_segmentIs s), Hsegs, Hs.
Qed.

(** X1. The retain set loses nothing: a time of the video that lies in no
    remove interval lies in one of the parts kept, whatever the remove
    intervals are (overlapping, nested, unsorted, or ending before they
    start). *)
Theorem retain_covers_what_is_not_removed
    (totalDuration : string) (segments sorted : list segment)
    (parts : list part) (t : number) :
  sortSegments segments = Ok sorted ->
  partsToKeep totalDuration sorted = Ok parts ->
  between t "00:00:00" totalDuration ->
  (forall s, s ∈ segments -> ~ between t (startTime s) (endTime s)) ->
  exists p, p ∈ parts /\ between t (start p) (end_ p).
Proof.
  intros Hsort Hparts (x & T' & Hx & HT' & H0 & HtT) Hout.
  destruct (planner_intervals _ _ _ _ Hsort Hparts)
    as (T & HT & Hsegs & Hwf & _ & H).
  rewrite HT in HT'. injection HT' as <-.
  rewrite start_of_video in Hx. injection Hx as <-.
  assert (Exists (inside t) (Spec.retain T (map intervalOf segments))) as He.
  { apply walkFrom_covers; [exact HtT | | | reflexivity | exact H0].
    - apply Forall_sortByStart, Hwf.
    - apply Forall_sortByStart, Forall_forall. intros r Hr.
      apply list_elem_of_In, in_map_iff in Hr as (s & <- & Hs).
      apply list_elem_of_In in Hs. rewrite Forall_forall in Hsegs.
      rewrite <- (between_inside t s _ (Hsegs s Hs)). apply Hout, Hs. }
  clear -H He. induction H as [|p r parts rs Hp H IH]; [inversion He|].
  apply Exists_cons in He as [He|He].
  - exists p. split; [left|]. apply (between_inside_part t p r Hp), He.
  - destruct (IH He) as (q & Hq & Hb). exists q. split; [right|]; assumption.
Qed.

Lemma retain_covers_what_is_not_removed_witness :
  exists p,
    p ∈ [{| start := "00:00:00"; end_ := "10" |};
         {| start := "25"; end_ := "60.000000" |}]
    /\ between (Fin 30) (start p) (end_ p).
Proof.
  apply (retain_covers_what_is_not_removed "60.000000"
           [{| startTime := "15"; endTime := "25" |};
            {| startTime := "10"; endTime := "20" |}]
           [{| startTime := "10"; endTime := "20" |};
            {| startTime := "15"; endTime := "25" |}]).
  - reflexivity.
  - reflexivity.
  - eexists _, _. repeat split; reflexivity.
  - intros s Hs (x & y & Hx & Hy & Hl & Hh).
    apply list_elem_of_In in Hs. simpl in Hs.
    destruct Hs as [<-|[<-|[]]]; injection Hx as <-; injection Hy as <-;
      discriminate.
Defined.

(** X2. When the ends of the remove intervals do not decrease in the
    sorted order (as for intervals that do not nest), the retain set keeps
    nothing that was to be removed: a time in a part kept lies in no
    remove interval. *)
Theorem retain_avoids_what_is_removed
    (totalDuration : string) (segments sorted : list segment)
    (parts : list part) (t : number) (p : part) (s : segment) :
  sortSegments segments = Ok sorted ->
  partsToKeep totalDuration sorted = Ok parts ->
  StronglySorted endsAscend sorted ->
  p ∈ parts -> s ∈ segments ->
  between t (start p) (end_ p) ->
  ~ between t (startTime s) (endTime s).
Proof.
  intros Hsort Hparts Hends Hp Hs Hin.
  destruct (planner_intervals _ _ _ _ Hsort Hparts)
    as (T & HT & Hsegs & Hwf & Hsorted & H).
  assert (exists i, i ∈ Spec.retain T (map intervalOf segments) /\ partIs p i)
    as (i & Hi & Hpi).
  { clear -H Hp. induction H as [|q r parts rs Hq H IH]; [inversion Hp|].
    apply elem_of_cons in Hp as [->|Hp].
    - exists r. split; [left | exact Hq].
    - destruct (IH Hp) as (i & Hi & Hpi). exists i. split; [right|]; assumption. }
  apply (between_inside_part t p i Hpi) in Hin.
  assert (StronglySorted byEnd (Spec.sortByStart (map intervalOf segments)))
    as He.
  { eapply (StronglySorted_transfer (fun r s => segmentIs s r));
      [|apply Forall2_flip, Hsorted|exact Hends].
    intros r r' x x' [_ Hr] [_ Hr'] Hxx. unfold endsAscend in Hxx.
    rewrite (lessThan_ok _ _ _ _ Hr' Hr) in Hxx. injection Hxx as Hxx.
    exact Hxx. }
  destruct (walkFrom_avoids t T _ (proj2 (Forall_sortByStart _ _) Hwf)
              (sortByStart_sorted _ Hwf) He (Fin 0) i Hi Hin) as [Hout _].
  apply (proj1 (Forall_sortByStart _ _)) in Hout.
  rewrite Forall_forall in Hout. rewrite Forall_forall in Hsegs.
  rewrite (between_inside t s _ (Hsegs s Hs)).
  apply Hout. apply list_elem_of_In, in_map. apply list_elem_of_In, Hs.
Qed.

Lemma retain_avoids_what_is_removed_witness :
  ~ between (Fin 5) "10" "20".
Proof.
  apply (retain_avoids_what_is_removed "60.000000"
           [{| startTime := "15"; endTime := "25" |};
            {| startTime := "10"; endTime := "20" |}]
           [{| startTime := "10"; endTime := "20" |};
            {| startTime := "15"; endTime := "25" |}]
           [{| start := "00:00:00"; end_ := "10" |};
            {| start := "25"; end_ := "60.000000" |}]
           (Fin 5) {| start := "00:00:00"; end_ := "10" |}
           {| startTime := "10"; endTime := "20" |}).
  - reflexivity.
  - reflexivity.
  - repeat constructor.
  - left.
  - right. left.
  - eexists _, _. repeat split; reflexivity.
Defined.

(** * The extractor feeds the parser *)

Lemma timeChar_facts (c : ascii) :
  timeChar c = true ->
  Js.is_white c = false /\ Ascii.eqb "-" c = false.
Proof.
  destruct c as [[] [] [] [] [] [] [] []]; vm_compute; intros H;
    try discriminate H; split; reflexivity.
Qed.

Lemma digit_facts (c : ascii) :
  Js.is_digit c = true ->
  timeChar c = true /\ Ascii.eqb ":" c = false /\ Ascii.eqb c "." = false
  /\ Ascii.eqb c "e" = false /\ Ascii.eqb c "E" = false
  /\ Js.read_sign (String c EmptyString) = (false, String c EmptyString)
  /\ Ascii.eqb "I" c = false.
Proof.
  destruct c as [[] [] [] [] [] [] [] []]; vm_compute; intros H;
    try discriminate H; repeat split; reflexivity.
Qed.

Lemma read_sign_digit (c : ascii) (r : string) :
  Js.is_digit c = true -> Js.read_sign (String c r) = (false, String c r).
Proof.
  destruct c as [[] [] [] [] [] [] [] []]; vm_compute; intros H;
    try discriminate H; reflexivity.
Qed.

Lemma prefix_Infinity_digit (c : ascii) (r : string) :
  Js.is_digit c = true -> String.prefix "Infinity" (String c r) = false.
Proof.
  destruct c as [[] [] [] [] [] [] [] []]; vm_compute; intros H;
    try discriminate H; reflexivity.
Qed.

Lemma all_digits_timeChars (s : string) :
  all_digits s = true -> all_chars timeChar s = true.
Proof.
  induction s as [|c r IH]; simpl; [reflexivity|].
  intros H. apply andb_true_iff in H as [Hc Hr].
  rewrite (proj1 (digit_facts c Hc)). simpl. apply IH, Hr.
Qed.

Lemma all_chars_app (P : ascii -> bool) (a b : string) :
  all_chars P (a +:+ b) = (all_chars P a && all_chars P b)%bool.
Proof.
  induction a as [|c a IH]; [reflexivity|].
  rewrite append_cons. simpl. rewrite IH, andb_assoc. reflexivity.
Qed.

Lemma timeChars_no_white_start (s : string) :
  all_chars timeChar s = true -> Js.trimStart s = s.
Proof.
  destruct s as [|c r]; simpl; [reflexivity|].
  intros H. apply andb_true_iff in H as [Hc _].
  rewrite (proj1 (timeChar_facts c Hc)). reflexivity.
Qed.

Lemma timeChars_no_white_end (s : string) :
  all_chars timeChar s = true -> Js.trimEnd s = s.
Proof.
  induction s as [|c r IH]; simpl; [reflexivity|].
  intros H. apply andb_true_iff in H as [Hc Hr].
  rewrite (IH Hr). destruct r; [|reflexivity].
  rewrite (proj1 (timeChar_facts c Hc)). reflexivity.
Qed.

Lemma timeChars_trim (s : string) :
  all_chars timeChar s = true -> Js.trim s = s.
Proof.
  intros H. unfold Js.trim.
  rewrite (timeChars_no_white_start s H). apply timeChars_no_white_end, H.
Qed.

Lemma timeChars_no_minus (s : string) :
  all_chars timeChar s = true -> Js.includes_char "-" s = false.
Proof.
  induction s as [|c r IH]; cbn [Js.includes_char all_chars]; [reflexivity|].
  intros H. apply andb_true_iff in H as [Hc Hr].
  rewrite (proj2 (timeChar_facts c Hc)). apply IH, Hr.
Qed.

Lemma all_digits_no_colon (s : string) :
  all_digits s = true -> Js.includes_char ":" s = false.
Proof.
  induction s as [|c r IH]; cbn [Js.includes_char all_digits]; [reflexivity|].
  intros H. apply andb_true_iff in H as [Hc Hr].
  destruct (digit_facts c Hc) as (_ & -> & _). apply IH, Hr.
Qed.

Lemma span_all_digits (s : string) :
  all_digits s = true ->
  snd (Js.span_digits s) = EmptyString
  /\ (s <> EmptyString -> fst (Js.span_digits s) <> []).
Proof.
  induction s as [|c r IH]; simpl; [split; [reflexivity|congruence]|].
  intros H. apply andb_true_iff in H as [Hc Hr]. rewrite Hc.
  destruct (IH Hr) as [IH1 _].
  destruct (Js.span_digits r) as [ds rest]. simpl in *.
  split; [exact IH1 | discriminate].
Qed.

(** [parseInt] of two digits is a number, not negative. *)
Lemma parseInt10_two_digits (a b : ascii) :
  Js.is_digit a = true -> Js.is_digit b = true ->
  exists z, Js.parseInt10 (String a (String b EmptyString)) = Num.of_Z z
            /\ 0 <= z.
Proof.
  intros Ha Hb. unfold Js.parseInt10.
  assert (Js.trimStart (String a (String b EmptyString))
          = String a (String b EmptyString)) as ->.
  { simpl. destruct (digit_facts a Ha) as (Ht & _).
    rewrite (proj1 (timeChar_facts a Ht)). reflexivity. }
  rewrite (read_sign_digit a _ Ha). simpl. rewrite Ha, Hb.
  eexists. split; [reflexivity|]. simpl.
  apply digits_value_nonneg. repeat constructor; apply is_digit_val; assumption.
Qed.

(** [parseFloat] of two digits and an optional fraction is a number, not
    negative. *)
Lemma parseFloat_seconds (a b : ascii) (frac : string) :
  Js.is_digit a = true -> Js.is_digit b = true ->
  (frac = EmptyString \/
   exists ds, frac = "." +:+ ds /\ ds <> EmptyString /\ all_digits ds = true) ->
  exists q, Js.parseFloat (String a (String b frac)) = Fin q /\ (0 <= q)%Q.
Proof.
  intros Ha Hb Hfrac.
  assert (all_chars timeChar (String a (String b frac)) = true) as Hchars.
  { simpl. rewrite (proj1 (digit_facts a Ha)), (proj1 (digit_facts b Hb)).
    simpl. destruct Hfrac as [->|(ds & -> & _ & Hds)]; [reflexivity|].
    rewrite append_cons, append_nil. simpl. apply all_digits_timeChars, Hds. }
  pose proof (parseFloat_nonneg _ (timeChars_no_minus _ Hchars)) as Hnn.
  assert (exists q, Js.parseFloat (String a (String b frac)) = Fin q) as [q Hq].
  { unfold Js.parseFloat.
    rewrite (timeChars_no_white_start _ Hchars), (read_sign_digit a _ Ha).
    rewrite (prefix_Infinity_digit a _ Ha).
    cbn [Js.span_digits]. rewrite Ha, Hb.
    destruct Hfrac as [->|(ds & -> & Hne & Hds)].
    - simpl. eexists. reflexivity.
    - rewrite append_cons, append_nil. cbn [Js.span_digits].
      replace (Js.is_digit ".") with false by reflexivity.
      destruct (Js.span_digits ds) as [fp r2]. eexists. reflexivity. }
  exists q. split; [exact Hq|]. rewrite Hq in Hnn. apply nonneg_Fin, Hnn.
Qed.

Lemma timestamp_parses (m : string) :
  timestampShape m -> parsesToSeconds m.
Proof.
  intros (core & frac & (h1 & h2 & m1 & m2 & s1 & s2 & Hd & ->) & -> & Hfrac).
  repeat match goal with
         | H : Forall _ (_ :: _) |- _ => apply Forall_cons in H as [? H]
         end.
  rewrite !append_cons, append_nil.
  assert (all_chars timeChar (String s1 (String s2 frac)) = true) as Hsec.
  { simpl. rewrite (proj1 (digit_facts s1 ltac:(assumption))),
      (proj1 (digit_facts s2 ltac:(assumption))).
    simpl. destruct Hfrac as [->|(ds & -> & _ & Hds)]; [reflexivity|].
    rewrite append_cons, append_nil. simpl. apply all_digits_timeChars, Hds. }
  assert (Js.includes_char ":" (String s1 (String s2 frac)) = false) as Hnc.
  { cbn [Js.includes_char].
    destruct (digit_facts s1 ltac:(assumption)) as (_ & -> & _).
    destruct (digit_facts s2 ltac:(assumption)) as (_ & -> & _).
    destruct Hfrac as [->|(ds & -> & _ & Hds)]; [reflexivity|].
    rewrite append_cons, append_nil. cbn [Js.includes_char].
    change (Ascii.eqb ":" ".") with false. cbv iota.
    apply all_digits_no_colon, Hds. }
  set (text := String h1 (String h2 (String ":" (String m1 (String m2
                 (String ":" (String s1 (String s2 frac)))))))).
  assert (all_chars timeChar text = true) as Hchars.
  { subst text. cbn [all_chars].
    rewrite (proj1 (digit_facts h1 ltac:(assumption))),
      (proj1 (digit_facts h2 ltac:(assumption))),
      (proj1 (digit_facts m1 ltac:(assumption))),
      (proj1 (digit_facts m2 ltac:(assumption))).
    exact Hsec. }
  assert (Js.split ":" text
          = [String h1 (String h2 EmptyString);
             String m1 (String m2 EmptyString);
             String s1 (String s2 frac)]) as Hsplit.
  { subst text. cbn [Js.split].
    destruct (digit_facts h1 ltac:(assumption)) as (_ & -> & _).
    destruct (digit_facts h2 ltac:(assumption)) as (_ & -> & _).
    destruct (digit_facts m1 ltac:(assumption)) as (_ & -> & _).
    destruct (digit_facts m2 ltac:(assumption)) as (_ & -> & _).
    change (Ascii.eqb ":" ":") with true. cbv iota.
    change (if Ascii.eqb ":" s1 then _ else _)
      with (Js.split ":" (String s1 (String s2 frac))).
    rewrite (split_no_separator _ _ Hnc). reflexivity. }
  destruct (parseInt10_two_digits h1 h2) as (hz & Hh & Hhz); try assumption.
  destruct (parseInt10_two_digits m1 m2) as (mz & Hm & Hmz); try assumption.
  destruct (parseFloat_seconds s1 s2 frac) as (q & Hq & Hq0); try assumption.
  unfold parsesToSeconds.
  rewrite parseStr_unfold. cbv zeta. rewrite (timeChars_trim _ Hchars).
  destruct (decide (text = EmptyString)) as [E|_]; [discriminate E|].
  replace (Js.includes_char ":" text) with true
    by (subst text; cbn [Js.includes_char];
        destruct (digit_facts h1 ltac:(assumption)) as (_ & -> & _);
        destruct (digit_facts h2 ltac:(assumption)) as (_ & -> & _);
        reflexivity).
  rewrite Hsplit. unfold hms. rewrite Hh, Hm, Hq. unfold Num.of_Z.
  rewrite !mul_Fin, !add_Fin. cbn [Num.isNaN].
  eexists. split; [reflexivity|].
  assert (0 <= inject_Z hz)%Q by (unfold Qle; simpl; lia).
  assert (0 <= inject_Z mz)%Q by (unfold Qle; simpl; lia).
  nra.
Qed.
